(** * Dashboard: track matching, progress aggregation and the two
      asynchronous AI handlers, verified over a shallow embedding of
      [components/Dashboard.tsx]. *)

From Stdlib Require Import ZArith String Ascii List Bool Lia.
From Stdlib Require Import Floats.SpecFloat.
From stdpp Require Import base decidable option list gmap strings pretty.

Local Open Scope string_scope.

(** ** JavaScript strings

    A string is a sequence of code units; the model covers the code units
    below 256 (the Latin-1 range), one [ascii] each. *)

Module JsString.

(** [String.prototype.toLowerCase] on one code unit: A-Z, and the Latin-1
    capitals U+00C0..U+00DE except the multiplication sign U+00D7, move
    up by 32; every other code unit below 256 is its own lower case. *)
Definition lower_unit (c : ascii) : ascii :=
  let n := nat_of_ascii c in
  if ((65 <=? n) && (n <=? 90) || (192 <=? n) && (n <=? 222) && negb (n =? 215))%nat
  then ascii_of_nat (n + 32) else c.

Fixpoint toLowerCase (s : string) : string :=
  match s with
  | EmptyString => EmptyString
  | String c s' => String (lower_unit c) (toLowerCase s')
  end.

(** The WhiteSpace and LineTerminator code units below 256:
    TAB, LF, VT, FF, CR, SP and NBSP. *)
Definition is_space (c : ascii) : bool :=
  let n := nat_of_ascii c in
  ((9 <=? n) && (n <=? 13) || (n =? 32) || (n =? 160))%nat.

Fixpoint trimStart (s : string) : string :=
  match s with
  | EmptyString => EmptyString
  | String c s' => if is_space c then trimStart s' else s
  end.

(** Drops the trailing white space: a code unit is kept when it is no
    white space or something is kept after it. *)
Fixpoint trimEnd (s : string) : string :=
  match s with
  | EmptyString => EmptyString
  | String c s' =>
      match trimEnd s' with
      | EmptyString => if is_space c then EmptyString else String c EmptyString
      | rest => String c rest
      end
  end.

Definition trim (s : string) : string := trimEnd (trimStart s).

(** Truthiness of a string value: only the empty string is falsy. *)
Definition truthy (s : string) : bool :=
  match s with EmptyString => false | String _ _ => true end.

(** [a || d] where [a] is a string that may be absent ([undefined]). *)
Definition or_else (a : option string) (d : string) : string :=
  match a with
  | Some s => if truthy s then s else d
  | None => d
  end.

End JsString.

(** [Array.prototype.includes] on an array of strings. *)
Definition includes (l : list string) (x : string) : bool :=
  existsb (String.eqb x) l.

(** ** Data model ([../types], as the component uses it) *)

(** [Domain] is a string tag: the component compares it with ['ML'] and
    uses it as the key of [prefs.configs]. *)
Definition Domain : Type := string.

Module Topic.
Record t : Type := mk { id : string }.
End Topic.

Module Track.
Record t : Type := mk {
  id : string;
  domain : Domain;
  level : string;
  languageOrTech : string;
  topics : list Topic.t
}.
End Track.

(** A per-domain preference; each field may be absent, which is what the
    [||] defaults of the matcher guard against. *)
Module Config.
Record t : Type := mk {
  level : option string;
  language : option string;
  libraries : option (list string)
}.
End Config.

Record Preferences : Type := {
  configs : gmap string Config.t
}.

Record UserProgress : Type := {
  activeDomains : list Domain;
  preferences : option Preferences;
  completedTopicIds : list string
}.

(** ** Track matcher ([activeTracks], lines 108-129) *)

(** The callback handed to [CURRICULUM.filter]. *)
Definition activeTracks_keep (progress : UserProgress) (prefs : Preferences)
    (path : Track.t) : bool :=
  if negb (includes (activeDomains progress) (Track.domain path)) then false else
  match configs prefs !! Track.domain path with
  | None => false
  | Some config =>
      let userLevel := JsString.or_else (Config.level config) "Beginner" in
      if negb (JsString.toLowerCase (Track.level path)
               =? JsString.toLowerCase userLevel)
      then false else
      if Track.domain path =? "ML" then
        let selectedFrameworks := default [] (Config.libraries config) in
        includes selectedFrameworks (Track.languageOrTech path)
      else
        let userLanguage := JsString.or_else (Config.language config) "" in
        JsString.toLowerCase (Track.languageOrTech path)
        =? JsString.toLowerCase userLanguage
  end.

(** [CURRICULUM] is imported from [../data/curriculum]; it is a parameter
    of the matcher here. *)
Definition activeTracks (CURRICULUM : list Track.t) (progress : UserProgress)
    : list Track.t :=
  match preferences progress with
  | None => []
  | Some prefs => List.filter (activeTracks_keep progress prefs) CURRICULUM
  end.

(** ** Numbers

    A JavaScript number is an IEEE-754 binary64 value; the arithmetic is
    that of [SpecFloat] at precision 53 and maximal exponent 1024. *)

Module Number.

Definition t : Type := spec_float.

Definition prec : Z := 53.
Definition emax : Z := 1024.

(** The number that an integer literal or an array length denotes
    (exact below [2^53]). *)
Definition of_Z (z : Z) : t := binary_normalize prec emax z 0 false.

Definition of_nat (n : nat) : t := of_Z (Z.of_nat n).

Definition div : t -> t -> t := SFdiv prec emax.
Definition mul : t -> t -> t := SFmul prec emax.

End Number.

Module Math.

(** [Math.round]: the integral number closest to [x], the one towards
    plus infinity at a tie, that is the floor of [x + 1/2] taken exactly;
    an integral [x], a NaN and an infinity are returned as they are, and
    the sign of a zero result is that of [x]. *)
Definition round (x : Number.t) : Number.t :=
  match x with
  | S754_finite s m e =>
      if (0 <=? e)%Z then x
      else
        let i := ((cond_Zopp s (Zpos m) + 2 ^ (- e - 1)) / 2 ^ (- e))%Z in
        binary_normalize Number.prec Number.emax i 0 s
  | _ => x
  end.

End Math.

(** ** Progress aggregator *)

(** Line 228: the topics of [path] whose id is in [completedTopicIds]. *)
Definition completedInTrack (progress : UserProgress) (path : Track.t) : nat :=
  length (List.filter
            (fun t => includes (completedTopicIds progress) (Topic.id t))
            (Track.topics path)).

(** Line 229. *)
Definition trackRate (progress : UserProgress) (path : Track.t) : Number.t :=
  if (0 <? length (Track.topics path))%nat
  then Math.round
         (Number.mul
            (Number.div (Number.of_nat (completedInTrack progress path))
                        (Number.of_nat (length (Track.topics path))))
            (Number.of_Z 100))
  else Number.of_Z 0.

(** Line 131: the sum of the topic counts of the matched tracks (a sum of
    array lengths, exact in binary64). *)
Definition totalPossibleTopics (tracks : list Track.t) : nat :=
  fold_left (fun acc curr => (acc + length (Track.topics curr))%nat) tracks 0%nat.

(** Line 132. *)
Definition totalCompletedTopics (progress : UserProgress) : nat :=
  length (completedTopicIds progress).

(** Lines 133-135. *)
Definition globalCompletionRate (CURRICULUM : list Track.t)
    (progress : UserProgress) : Number.t :=
  let total := totalPossibleTopics (activeTracks CURRICULUM progress) in
  if (0 <? total)%nat
  then Math.round
         (Number.mul
            (Number.div (Number.of_nat (totalCompletedTopics progress))
                        (Number.of_nat total))
            (Number.of_Z 100))
  else Number.of_Z 0.

(** ** Component state (the [useState] cells, lines 40-48) *)

Inductive Role : Type := user | bot.

Record ChatMessage : Type := {
  role : Role;
  text : string
}.

Record State : Type := {
  isChatOpen : bool;
  chatInput : string;
  chatHistory : list ChatMessage;
  isSending : bool;
  motivation : string;
  isMotivationLoading : bool
}.

Definition initialState : State := {|
  isChatOpen := false;
  chatInput := "";
  chatHistory := [];
  isSending := false;
  motivation := "Loading your daily focus...";
  isMotivationLoading := false
|}.

(** The state setters. [setChatHistory] is only ever called with an updater
    function, which React applies to the latest value of the cell. *)
Definition setIsChatOpen (v : bool) (s : State) : State :=
  {| isChatOpen := v; chatInput := chatInput s; chatHistory := chatHistory s;
     isSending := isSending s; motivation := motivation s;
     isMotivationLoading := isMotivationLoading s |}.

Definition setChatInput (v : string) (s : State) : State :=
  {| isChatOpen := isChatOpen s; chatInput := v; chatHistory := chatHistory s;
     isSending := isSending s; motivation := motivation s;
     isMotivationLoading := isMotivationLoading s |}.

Definition setChatHistory (f : list ChatMessage -> list ChatMessage) (s : State)
    : State :=
  {| isChatOpen := isChatOpen s; chatInput := chatInput s;
     chatHistory := f (chatHistory s);
     isSending := isSending s; motivation := motivation s;
     isMotivationLoading := isMotivationLoading s |}.

Definition setIsSending (v : bool) (s : State) : State :=
  {| isChatOpen := isChatOpen s; chatInput := chatInput s;
     chatHistory := chatHistory s;
     isSending := v; motivation := motivation s;
     isMotivationLoading := isMotivationLoading s |}.

Definition setMotivation (v : string) (s : State) : State :=
  {| isChatOpen := isChatOpen s; chatInput := chatInput s;
     chatHistory := chatHistory s;
     isSending := isSending s; motivation := v;
     isMotivationLoading := isMotivationLoading s |}.

Definition setIsMotivationLoading (v : bool) (s : State) : State :=
  {| isChatOpen := isChatOpen s; chatInput := chatInput s;
     chatHistory := chatHistory s;
     isSending := isSending s; motivation := motivation s;
     isMotivationLoading := v |}.

(** ** Async functions

    An async function is a tree of state updates that suspends at each
    [await] of an external promise and is resumed, later, with the way the
    promise settled. *)

(** The remote calls. Their constant arguments (the API keys, the model
    name, the system instruction, the prompt and the sampling options) do
    not depend on the state and are left out. Building the client
    ([new GoogleGenAI]) and [ai.models.generateContent] stand inside the
    same [try] and are one call: a failure of either reaches the same
    [catch]. A call answers with the value the handler reads: the session
    id, the quote, [response.text]. *)
Inductive Call : Type -> Type :=
  | createOnDemandSession (name : string) : Call string
  | queryOnDemand (sid : string) (query : string) : Call (option string)
  | generateContent (contents : string) : Call (option string).

Inductive Settled (X : Type) : Type :=
  | Fulfilled (x : X)
  | Rejected.
Arguments Fulfilled {X} x.
Arguments Rejected {X}.

Inductive Async : Type :=
  | Return
  | Throw
  | Update (f : State -> State) (k : Async)
  | Await {X : Type} (c : Call X) (k : Settled X -> Async).

(** One statement that calls a setter. *)
Definition set (f : State -> State) : Async := Update f Return.

(** [a ;; b]: [b] runs when [a] completes normally. *)
Fixpoint andThen (a b : Async) : Async :=
  match a with
  | Return => b
  | Throw => Throw
  | Update f k => Update f (andThen k b)
  | Await c k => Await c (fun o => andThen (k o) b)
  end.

(** [await c], then [k] on the value; a rejection is thrown. *)
Definition await {X : Type} (c : Call X) (k : X -> Async) : Async :=
  Await c (fun o => match o with Fulfilled x => k x | Rejected => Throw end).

(** [try { body } catch (e) { handler }]. *)
Fixpoint try_catch (body handler : Async) : Async :=
  match body with
  | Return => Return
  | Throw => handler
  | Update f k => Update f (try_catch k handler)
  | Await c k => Await c (fun o => try_catch (k o) handler)
  end.

(** [... finally { final }]: [final] runs on both exits, and an exception
    that was not caught goes on after it. *)
Fixpoint finally (body final : Async) : Async :=
  match body with
  | Return => final
  | Throw => andThen final Throw
  | Update f k => Update f (finally k final)
  | Await c k => Await c (fun o => finally (k o) final)
  end.

Declare Scope async_scope.
Delimit Scope async_scope with async.
Bind Scope async_scope with Async.
Notation "a ;; b" := (andThen a b)
  (at level 100, b at level 200, right associativity) : async_scope.
Notation "'try_' b 'catch_' h 'finally_' f" :=
  (finally (try_catch b h) f)
  (at level 10, b at level 9, h at level 9, f at level 9) : async_scope.
Local Open Scope async_scope.

(** [fetchMotivation] (lines 50-66); [name] is [user.name]. *)
Definition fetchMotivation (name : string) : Async :=
  set (setIsMotivationLoading true) ;;
  try_
    (await (createOnDemandSession name) (fun sid =>
     await (queryOnDemand sid "Give me a motivation quote for today.") (fun quote =>
     set (setMotivation
            (JsString.or_else quote
               "Consistency is the key to mastering your career path.")))))
  catch_
    (set (setMotivation
            "Success is the sum of small efforts, repeated day-in and day-out."))
  finally_
    (set (setIsMotivationLoading false)).

(** [handleSendMessage] (lines 80-106). [render] is the state of the render
    whose closure the handler is: [chatInput] and [isSending] are read from
    it, while the updater of [setChatHistory] sees the latest history. *)
Definition handleSendMessage (render : State) : Async :=
  if negb (JsString.truthy (JsString.trim (chatInput render))) || isSending render
  then Return
  else
    let userText := chatInput render in
    set (setChatHistory (fun prev => (prev ++ [{| role := user; text := userText |}])%list)) ;;
    set (setChatInput "") ;;
    set (setIsSending true) ;;
    try_
      (await (generateContent userText) (fun response_text =>
       let botText :=
         JsString.or_else response_text
           "I'm sorry, I couldn't process that request right now." in
       set (setChatHistory (fun prev => (prev ++ [{| role := bot; text := botText |}])%list))))
    catch_
      (set (setChatHistory (fun prev =>
              (prev ++ [{| role := bot;
                           text := "Error connecting to AI service. Please check your connection." |}])%list)))
    finally_
      (set (setIsSending false)).

(** ** Running the component *)

(** A suspended async function: the call it awaits and what it does when
    the call settles. *)
Record Task : Type := {
  awaited : Type;
  call : Call awaited;
  resume : Settled awaited -> Async
}.

Inductive Outcome : Type :=
  | Completed
  | Uncaught
  | Suspended (t : Task).

(** Runs an async function up to its next [await]. *)
Fixpoint run (p : Async) (s : State) : State * Outcome :=
  match p with
  | Return => (s, Completed)
  | Throw => (s, Uncaught)
  | Update f k => run k (f s)
  | Await c k => (s, Suspended {| call := c; resume := k |})
  end.

(** The mounted component: its state and the async functions in flight. *)
Record System : Type := {
  state : State;
  pending : list Task
}.

Definition initialSystem : System := {| state := initialState; pending := [] |}.

Definition spawned (o : Outcome) : list Task :=
  match o with Suspended t => [t] | _ => [] end.

(** Runs [p] on the state of [sys]; if it suspends it joins the async
    functions in flight. *)
Definition start (p : Async) (sys : System) : System :=
  let '(s', o) := run p (state sys) in
  {| state := s'; pending := (pending sys ++ spawned o)%list |}.

(** What can happen to the mounted component. Every event handler runs in
    the closure of the latest render. *)
Inductive step : System -> System -> Prop :=
  | step_toggle sys :
      (* line 323 *)
      step sys {| state := setIsChatOpen (negb (isChatOpen (state sys))) (state sys);
                  pending := pending sys |}
  | step_input sys v :
      (* line 394 *)
      step sys {| state := setChatInput v (state sys); pending := pending sys |}
  | step_send sys :
      (* lines 395 and 409: the Enter key and the Send button *)
      step sys (start (handleSendMessage (state sys)) sys)
  | step_refresh sys name :
      (* lines 68-70 and 200: the effect on [user.name] and the refresh button *)
      step sys (start (fetchMotivation name) sys)
  | step_settle sys before t after (o : Settled (awaited t)) :
      (* the promise awaited by [t] settles *)
      pending sys = (before ++ t :: after)%list ->
      step sys (start (resume t o) {| state := state sys; pending := (before ++ after)%list |}).

Definition reachable (sys : System) : Prop := rtc step initialSystem sys.

(** The chat requests in flight. *)
Definition is_chat_call {X : Type} (c : Call X) : bool :=
  match c with generateContent _ => true | _ => false end.

Definition in_flight (sys : System) : nat :=
  length (List.filter (fun t => is_chat_call (call t)) (pending sys)).

(** ** The specification's wording

    These definitions follow the sentences of the specification, not the
    code; the theorems below compare the two. *)

Module Spec.

Definition equal_ignoring_case (a b : string) : Prop :=
  JsString.toLowerCase a = JsString.toLowerCase b.

(** The level of a config, ["Beginner"] when it is empty or absent. *)
Definition level_of (c : Config.t) : string :=
  match Config.level c with
  | Some l => if decide (l = "") then "Beginner" else l
  | None => "Beginner"
  end.

(** The language of a config, the empty string when it is absent. *)
Definition language_of (c : Config.t) : string :=
  default "" (Config.language c).

(** The libraries of a config, none when they are absent. *)
Definition libraries_of (c : Config.t) : list string :=
  default [] (Config.libraries c).

(** Conditions a to d of the matcher. *)
Definition matched (progress : UserProgress) (prefs : Preferences)
    (t : Track.t) : Prop :=
  Track.domain t ∈ activeDomains progress
  /\ exists c : Config.t,
       configs prefs !! Track.domain t = Some c
       /\ equal_ignoring_case (Track.level t) (level_of c)
       /\ if decide (Track.domain t = "ML")
          then Track.languageOrTech t ∈ libraries_of c
          else equal_ignoring_case (Track.languageOrTech t) (language_of c).

#[global] Instance matched_dec progress prefs t :
  Decision (matched progress prefs t).
Proof.
  unfold matched, equal_ignoring_case.
  destruct (decide (Track.domain t ∈ activeDomains progress)) as [Hd|Hd];
    [| right; intros [? _]; contradiction].
  destruct (configs prefs !! Track.domain t) as [c|];
    [| right; intros (_ & c & Hc & _); discriminate].
  destruct (decide (JsString.toLowerCase (Track.level t)
                    = JsString.toLowerCase (level_of c))) as [Hl|Hl];
    [| right; intros (_ & c' & Hc & Hl' & _); congruence].
  destruct (decide (Track.domain t = "ML")) as [Hml|Hml].
  - destruct (decide (Track.languageOrTech t ∈ libraries_of c)) as [Hi|Hi].
    + left. split; [assumption |]. exists c. auto.
    + right. intros (_ & c' & Hc & _ & Hi'). congruence.
  - destruct (decide (JsString.toLowerCase (Track.languageOrTech t)
                      = JsString.toLowerCase (language_of c))) as [Hi|Hi].
    + left. split; [assumption |]. exists c. auto.
    + right. intros (_ & c' & Hc & _ & Hi'). congruence.
Defined.

(** Every topic id of the given tracks. *)
Definition topicIds (tracks : list Track.t) : list string :=
  flat_map (fun t => map Topic.id (Track.topics t)) tracks.

(** [K]: the completed topic ids that are topics of the given tracks. *)
Definition completedAcross (tracks : list Track.t) (completed : list string)
    : nat :=
  length (filter (fun i => i ∈ topicIds tracks) completed).

(** [round(p / q)] for [q > 0], a tie going up as [Math.round] has it. *)
Definition round_ratio (p q : Z) : Z := ((2 * p + q) / (2 * q))%Z.

(** [globalCompletion]: [round(100 * K / T)], and [0] when [T] is zero. *)
Definition globalCompletion (tracks : list Track.t) (completed : list string)
    : Z :=
  let T := totalPossibleTopics tracks in
  if (T =? 0)%nat then 0%Z
  else round_ratio (100 * Z.of_nat (completedAcross tracks completed))
                   (Z.of_nat T).

(** The roles of a history alternate, starting with the user. *)
Definition alternates (h : list ChatMessage) : Prop :=
  forall (i : nat) (m : ChatMessage),
    h !! i = Some m -> role m = if Nat.even i then user else bot.

End Spec.

(** ** Sample data *)

Module Sample.

Definition topic (i : nat) : Topic.t := Topic.mk ("t" +:+ pretty i).

(** A Web track for beginners in JavaScript with [n] topics [t0], [t1], ... *)
Definition webTrack (n : nat) : Track.t :=
  {| Track.id := "web-js-beginner"; Track.domain := "Web";
     Track.level := "Beginner"; Track.languageOrTech := "JavaScript";
     Track.topics := map topic (seq 0 n) |}.

(** A Web track for beginners in Python with the single topic [t9]. *)
Definition pythonTrack : Track.t :=
  {| Track.id := "web-py-beginner"; Track.domain := "Web";
     Track.level := "Beginner"; Track.languageOrTech := "Python";
     Track.topics := [topic 9] |}.

(** A Web track whose [languageOrTech] is the empty string. *)
Definition blankTrack : Track.t :=
  {| Track.id := "web-blank"; Track.domain := "Web";
     Track.level := "Beginner"; Track.languageOrTech := "";
     Track.topics := [topic 0] |}.

Definition webConfig : Config.t :=
  {| Config.level := Some "beginner"; Config.language := Some "javascript";
     Config.libraries := None |}.

Definition emptyConfig : Config.t :=
  {| Config.level := None; Config.language := None; Config.libraries := None |}.

Definition webPrefs (c : Config.t) : Preferences :=
  {| configs := {[ "Web" := c ]} |}.

Definition progress (c : Config.t) (completed : list string) : UserProgress :=
  {| activeDomains := ["Web"]; preferences := Some (webPrefs c);
     completedTopicIds := completed |}.

(** The first [k] topics of [webTrack] are completed. *)
Definition firstCompleted (k : nat) : UserProgress :=
  progress webConfig (map (fun i => Topic.id (topic i)) (seq 0 k)).

(** The user typed a message and pressed Enter. *)
Definition typed : System :=
  {| state := setChatInput "hello" initialState; pending := [] |}.

Definition sent : System := start (handleSendMessage (state typed)) typed.

(** The same system after the refresh button was pressed instead. *)
Definition refreshed : System := start (fetchMotivation "Asha") typed.

(** A second Web track for beginners in JavaScript, spelled in capitals. *)
Definition capitalsTrack : Track.t :=
  {| Track.id := "web-js-capitals"; Track.domain := "Web";
     Track.level := "BEGINNER"; Track.languageOrTech := "JAVASCRIPT";
     Track.topics := [topic 5] |}.

(** An ML track for beginners in PyTorch. *)
Definition mlTrack : Track.t :=
  {| Track.id := "ml-pytorch-beginner"; Track.domain := "ML";
     Track.level := "Beginner"; Track.languageOrTech := "PyTorch";
     Track.topics := [topic 7] |}.

Definition mlConfig : Config.t :=
  {| Config.level := None; Config.language := None;
     Config.libraries := Some ["PyTorch"] |}.

(** Preferences for the Web and the ML domain. *)
Definition bothPrefs : Preferences :=
  {| configs := <[ "ML" := mlConfig ]> {[ "Web" := webConfig ]} |}.

(** The learner of [bothPrefs] with the given active domains. *)
Definition active (domains : list Domain) : UserProgress :=
  {| activeDomains := domains; preferences := Some bothPrefs;
     completedTopicIds := [] |}.

End Sample.

(** ** Invariants of the running component *)

(** What the assistant says for each way the chat request settles. *)
Definition botReply (o : Settled (option string)) : string :=
  match o with
  | Fulfilled response_text =>
      JsString.or_else response_text
        "I'm sorry, I couldn't process that request right now."
  | Rejected => "Error connecting to AI service. Please check your connection."
  end.

(** The cells of the chat controller that the invariants speak of. *)
Definition chatPart (s : State) : list ChatMessage * bool :=
  (chatHistory s, isSending s).

(** An async function that never writes the chat cells and never awaits a
    chat request. *)
Inductive chat_neutral : Async -> Prop :=
  | neutral_Return : chat_neutral Return
  | neutral_Throw : chat_neutral Throw
  | neutral_Update f k :
      (forall s, chatPart (f s) = chatPart s) ->
      chat_neutral k ->
      chat_neutral (Update f k)
  | neutral_Await (X : Type) (c : Call X) (k : Settled X -> Async) :
      is_chat_call c = false ->
      (forall o, chat_neutral (k o)) ->
      chat_neutral (Await c k).

(** A continuation that, however the call settles, appends one message of
    the assistant, resets [isSending] and completes. *)
Definition delivers_reply {X : Type} (k : Settled X -> Async) : Prop :=
  forall (o : Settled X) (s : State),
  exists reply : string,
    run (k o) s
    = (setIsSending false
         (setChatHistory (fun prev => (prev ++ [{| role := bot; text := reply |}])%list) s),
       Completed).

Definition task_ok (t : Task) : Prop :=
  if is_chat_call (call t) then delivers_reply (resume t)
  else forall o, chat_neutral (resume t o).

Record invariant (sys : System) : Prop := {
  inv_tasks : Forall task_ok (pending sys);
  inv_in_flight :
    in_flight sys = if isSending (state sys) then 1%nat else 0%nat;
  inv_alternates : Spec.alternates (chatHistory (state sys));
  inv_parity :
    Nat.even (length (chatHistory (state sys))) = negb (isSending (state sys))
}.

(** ** The rest of the view *)

(** Line 170: [user.name.split(' ')[0]], the name up to its first space. *)
Fixpoint firstName (name : string) : string :=
  match name with
  | EmptyString => EmptyString
  | String c rest =>
      if Ascii.eqb c " " then EmptyString else String c (firstName rest)
  end.

(** Line 410: the [disabled] attribute of the Send button. *)
Definition sendDisabled (s : State) : bool :=
  isSending s || negb (JsString.truthy (JsString.trim (chatInput s))).

(** The code units of a string. *)
Definition codeUnits (s : string) : list ascii := list_ascii_of_string s.

(** The motivation requests in flight: the sessions and the queries. *)
Definition motivation_in_flight (sys : System) : nat :=
  length (List.filter (fun t => negb (is_chat_call (call t))) (pending sys)).

(** The cells of the chat assistant and those of the motivation feed. *)
Definition chatCells (s : State) : bool * string * list ChatMessage * bool :=
  (isChatOpen s, chatInput s, chatHistory s, isSending s).

Definition motivationCells (s : State) : string * bool :=
  (motivation s, isMotivationLoading s).

(** An async function that, on every path through its awaits, ends without
    an uncaught exception and whose every update is an [R] step. *)
Inductive settles (R : State -> State -> Prop) : Async -> Prop :=
  | settles_Return : settles R Return
  | settles_Update f k :
      (forall s, R s (f s)) -> settles R k -> settles R (Update f k)
  | settles_Await (X : Type) (c : Call X) (k : Settled X -> Async) :
      (forall o, settles R (k o)) -> settles R (Await c k).

(** What is shown is never empty: no message of the history has an empty
    text, no message of the user is blank, and the motivation is a
    sentence. *)
Definition content_shown (s : State) : Prop :=
  (forall m, m ∈ chatHistory s ->
             text m <> "" /\ (role m = user -> JsString.trim (text m) <> ""))
  /\ motivation s <> "".

(** The two controllers: a step that keeps the motivation cells, and one
    that keeps the chat cells. *)
Definition keepsMotivation (s s' : State) : Prop :=
  motivationCells s' = motivationCells s.

Definition keepsChat (s s' : State) : Prop :=
  chatCells s' = chatCells s.

(** What an update of a controller must keep: the cells of the other one. *)
Definition keepsOther (chat : bool) : State -> State -> Prop :=
  if chat then keepsMotivation else keepsChat.

(** An async function of one controller, the chat assistant ([chat] true)
    or the motivation feed: it awaits calls of that controller only, and
    its every update keeps the cells of the other controller. *)
Inductive owned (chat : bool) : Async -> Prop :=
  | owned_Return : owned chat Return
  | owned_Update f k :
      (forall s, keepsOther chat s (f s)) -> owned chat k -> owned chat (Update f k)
  | owned_Await (X : Type) (c : Call X) (k : Settled X -> Async) :
      is_chat_call c = chat ->
      (forall o, owned chat (k o)) ->
      owned chat (Await c k).

(** The steps of the chat assistant: opening the panel, typing, sending,
    and the settling of a chat request. *)
Inductive chat_step : System -> System -> Prop :=
  | chat_toggle sys :
      chat_step sys
        {| state := setIsChatOpen (negb (isChatOpen (state sys))) (state sys);
           pending := pending sys |}
  | chat_input sys v :
      chat_step sys {| state := setChatInput v (state sys); pending := pending sys |}
  | chat_send sys :
      chat_step sys (start (handleSendMessage (state sys)) sys)
  | chat_settle sys before t after (o : Settled (awaited t)) :
      pending sys = (before ++ t :: after)%list ->
      is_chat_call (call t) = true ->
      chat_step sys
        (start (resume t o) {| state := state sys; pending := (before ++ after)%list |}).

(** The steps of the motivation feed: a refresh, and the settling of a
    session or query request. *)
Inductive motivation_step : System -> System -> Prop :=
  | motivation_refresh sys name :
      motivation_step sys (start (fetchMotivation name) sys)
  | motivation_settle sys before t after (o : Settled (awaited t)) :
      pending sys = (before ++ t :: after)%list ->
      is_chat_call (call t) = false ->
      motivation_step sys
        (start (resume t o) {| state := state sys; pending := (before ++ after)%list |}).

(** A step that keeps [content_shown]. *)
Definition keepsContent (s s' : State) : Prop :=
  content_shown s -> content_shown s'.

(** Two configs that make the same choice up to the case of the level and
    of the language. *)
Definition same_choice (c c' : Config.t) : Prop :=
  Spec.equal_ignoring_case (Spec.level_of c) (Spec.level_of c')
  /\ Spec.equal_ignoring_case (Spec.language_of c) (Spec.language_of c')
  /\ Spec.libraries_of c = Spec.libraries_of c'.

(** * Theorems *)

(** ** Binary64 arithmetic of a percentage

    [Math.round((k / n) * 100)] rounds three times: the quotient, the
    product and the final integer. The lemmas bound the first two and
    conclude that the result is an integer nearest to [100 * k / n]. *)

Section Binary64.

Local Open Scope Z_scope.

(** [digits2_pos] counts the binary digits. *)
Lemma digits2_pos_bounds (p : positive) :
  2 ^ (Zpos (digits2_pos p) - 1) <= Zpos p < 2 ^ Zpos (digits2_pos p).
Proof.
  induction p as [p IH|p IH|]; cbn [digits2_pos]; [| | cbn; lia].
  all: rewrite Pos2Z.inj_succ.
  all: replace (Z.succ (Zpos (digits2_pos p)) - 1)
         with (Zpos (digits2_pos p) - 1 + 1) by lia.
  all: rewrite Z.pow_succ_r, Z.pow_add_r by lia; lia.
Qed.

Lemma Zdigits2_unique (m d : Z) :
  0 < d -> 2 ^ (d - 1) <= m < 2 ^ d -> Zdigits2 m = d.
Proof.
  intros Hd [Hlo Hhi].
  assert (0 < m) by (pose proof (Z.pow_pos_nonneg 2 (d - 1)); lia).
  destruct m as [|p|p]; try lia. cbn [Zdigits2].
  pose proof (digits2_pos_bounds p) as [Hl Hh].
  set (d' := Zpos (digits2_pos p)) in *.
  destruct (Z.lt_trichotomy d' d) as [Hlt|[->|Hgt]]; [exfalso | reflexivity | exfalso].
  - assert (2 ^ d' <= 2 ^ (d - 1)) by (apply Z.pow_le_mono_r; lia). lia.
  - assert (2 ^ d <= 2 ^ (d' - 1)) by (apply Z.pow_le_mono_r; lia). lia.
Qed.

(** A right shift halves the mantissa, whatever the round and sticky bits. *)
Lemma shr_m_shr_1 (mrs : shr_record) :
  0 <= shr_m mrs -> shr_m (shr_1 mrs) = shr_m mrs / 2.
Proof.
  destruct mrs as [m r s]. cbn [shr_m]. intros Hm.
  destruct m as [|[p|p|]|p]; cbn [shr_1 shr_m]; try lia; try reflexivity.
  - rewrite Pos2Z.inj_xI. apply Z.div_unique with (r := 1); lia.
  - rewrite Pos2Z.inj_xO. apply Z.div_unique with (r := 0); lia.
Qed.

Lemma shr_m_iter_pos (p : positive) (mrs : shr_record) :
  0 <= shr_m mrs ->
  shr_m (SpecFloat.iter_pos shr_1 p mrs) = shr_m mrs / 2 ^ Zpos p.
Proof.
  revert mrs. induction p as [p IH|p IH|]; intros mrs Hm; cbn [SpecFloat.iter_pos].
  - assert (H1 : 0 <= shr_m (shr_1 mrs)) by (rewrite shr_m_shr_1 by lia; apply Z.div_pos; lia).
    assert (H2 : 0 <= shr_m (SpecFloat.iter_pos shr_1 p (shr_1 mrs)))
      by (rewrite IH by lia; apply Z.div_pos; [lia | apply Z.pow_pos_nonneg; lia]).
    rewrite IH, IH, shr_m_shr_1 by lia.
    rewrite !Z.div_div by (try apply Z.pow_pos_nonneg; lia).
    f_equal. rewrite <- Z.pow_add_r by lia.
    rewrite <- (Z.pow_succ_r 2 (Zpos p + Zpos p)) by lia. f_equal. lia.
  - assert (H2 : 0 <= shr_m (SpecFloat.iter_pos shr_1 p mrs))
      by (rewrite IH by lia; apply Z.div_pos; [lia | apply Z.pow_pos_nonneg; lia]).
    rewrite IH, IH by lia.
    rewrite !Z.div_div by (try apply Z.pow_pos_nonneg; lia).
    f_equal. rewrite <- Z.pow_add_r by lia. f_equal. lia.
  - rewrite shr_m_shr_1 by lia. reflexivity.
Qed.

Lemma shr_m_shr (mrs : shr_record) (e n : Z) :
  0 <= shr_m mrs -> 0 <= n ->
  shr_m (fst (shr mrs e n)) = shr_m mrs / 2 ^ n /\ snd (shr mrs e n) = e + n.
Proof.
  intros Hm Hn. destruct n as [|p|p]; cbn [shr fst snd]; try lia.
  - rewrite Z.div_1_r. lia.
  - split; [apply shr_m_iter_pos; lia | reflexivity].
Qed.

Lemma shr_m_record_of_loc m l : shr_m (shr_record_of_loc m l) = m.
Proof. destruct l as [|[]]; reflexivity. Qed.

Lemma round_nearest_even_range m l :
  m <= round_nearest_even m l <= m + 1.
Proof.
  destruct l as [|[]]; cbn [round_nearest_even]; try lia.
  destruct (Z.even m); lia.
Qed.

Lemma fexp_normal (x : Z) : -1021 <= x -> fexp 53 1024 x = x - 53.
Proof. intros. unfold fexp, emin. lia. Qed.

(** Rounding a positive integer [mx] of [d >= 53] digits at exponent [ex],
    in the normal range and below the overflow threshold. *)
Lemma binary_round_aux_faithful (mx ex : Z) (lx : location) (d : Z) :
  53 <= d -> 2 ^ (d - 1) <= mx < 2 ^ d ->
  -1021 <= d + ex -> d + ex <= 1023 ->
  exists (M : positive) (c : Z),
    binary_round_aux 53 1024 false mx ex lx = S754_finite false M (ex + (d - 53) + c)
    /\ 0 <= c <= 1
    /\ 2 ^ 52 <= Zpos M < 2 ^ 53
    /\ mx - 2 ^ (d - 53) < Zpos M * 2 ^ c * 2 ^ (d - 53) <= mx + 2 ^ (d - 53).
Proof.
  intros Hd Hmx Hlo Hhi.
  assert (Hdig : Zdigits2 mx = d) by (apply Zdigits2_unique; lia).
  assert (Hpos : 0 < 2 ^ (d - 53)) by (apply Z.pow_pos_nonneg; lia).
  assert (Hsplit : 2 ^ d = 2 ^ 53 * 2 ^ (d - 53))
    by (rewrite <- Z.pow_add_r by lia; f_equal; lia).
  assert (Hsplit' : 2 ^ (d - 1) = 2 ^ 52 * 2 ^ (d - 53))
    by (rewrite <- Z.pow_add_r by lia; f_equal; lia).
  unfold binary_round_aux, shr_fexp.
  rewrite Hdig, fexp_normal by lia.
  replace (d + ex - 53 - ex) with (d - 53) by lia.
  pose proof (shr_m_shr (shr_record_of_loc mx lx) ex (d - 53)) as Hshr.
  rewrite shr_m_record_of_loc in Hshr.
  destruct Hshr as [Hm He]; [lia | lia |].
  destruct (shr (shr_record_of_loc mx lx) ex (d - 53)) as [mrs' e'].
  cbn [fst snd] in Hm, He. subst e'.
  set (q := mx / 2 ^ (d - 53)) in *.
  assert (Hq : q * 2 ^ (d - 53) <= mx < (q + 1) * 2 ^ (d - 53)).
  { unfold q. pose proof (Z.mul_div_le mx (2 ^ (d - 53)) Hpos).
    pose proof (Z.mul_succ_div_gt mx (2 ^ (d - 53)) Hpos). lia. }
  assert (Hqr : 2 ^ 52 <= q < 2 ^ 53) by nia.
  pose proof (round_nearest_even_range (shr_m mrs') (loc_of_shr_record mrs')) as Hr.
  rewrite Hm in *.
  set (m1 := round_nearest_even q (loc_of_shr_record mrs')) in *.
  destruct (Z.eq_dec m1 (2 ^ 53)) as [Hov|Hnov].
  - (* the rounding carried into a 54th digit *)
    rewrite Hov.
    change (Zdigits2 (2 ^ 53)) with 54.
    rewrite fexp_normal by lia.
    replace (54 + (ex + (d - 53)) - 53 - (ex + (d - 53))) with 1 by lia.
    cbn [shr shr_record_of_loc SpecFloat.iter_pos shr_1 shr_m].
    change (shr_m (shr_1 {| shr_m := 2 ^ 53; shr_r := false; shr_s := false |}))
      with (Zpos (2 ^ 52)%positive).
    cbv beta iota.
    replace (ex + (d - 53) + 1 <=? 1024 - 53) with true by (symmetry; apply Z.leb_le; lia).
    exists (2 ^ 52)%positive, 1.
    change (Zpos (2 ^ 52)) with (2 ^ 52). change (2 ^ 1) with 2.
    repeat split; try lia; nia.
  - assert (Hm1 : 2 ^ 52 <= m1 < 2 ^ 53) by lia.
    assert (Hd1 : Zdigits2 m1 = 53) by (apply Zdigits2_unique; [lia | exact Hm1]).
    rewrite Hd1, fexp_normal by lia.
    replace (53 + (ex + (d - 53)) - 53 - (ex + (d - 53))) with 0 by lia.
    cbn [shr shr_record_of_loc shr_m].
    destruct m1 as [|M|M] eqn:EM; try lia.
    replace (ex + (d - 53) <=? 1024 - 53) with true by (symmetry; apply Z.leb_le; lia).
    exists M, 0. change (2 ^ 0) with 1.
    replace (ex + (d - 53) + 0) with (ex + (d - 53)) by lia.
    repeat split; try lia; nia.
Qed.

(** A mantissa of 53 digits with nothing to round is kept. *)
Lemma binary_round_aux_exact (M : positive) (e : Z) :
  2 ^ 52 <= Zpos M < 2 ^ 53 -> -1074 <= e <= 971 ->
  binary_round_aux 53 1024 false (Zpos M) e loc_Exact = S754_finite false M e.
Proof.
  intros HM He.
  assert (Hd : Zdigits2 (Zpos M) = 53) by (apply Zdigits2_unique; [lia | exact HM]).
  unfold binary_round_aux, shr_fexp.
  rewrite Hd, fexp_normal by lia.
  replace (53 + e - 53 - e) with 0 by lia.
  cbn [shr shr_record_of_loc shr_m loc_of_shr_record round_nearest_even].
  rewrite Hd, fexp_normal by lia.
  replace (53 + e - 53 - e) with 0 by lia.
  cbn [shr shr_record_of_loc shr_m].
  replace (e <=? 1024 - 53) with true by (symmetry; apply Z.leb_le; lia).
  reflexivity.
Qed.

Lemma Zpos_iter_xO (p x : positive) :
  Zpos (Pos.iter xO p x) = Zpos p * 2 ^ Zpos x.
Proof.
  induction x as [|x IH] using Pos.peano_ind.
  - cbn [Pos.iter]. rewrite Pos2Z.inj_xO. change (2 ^ 1) with 2. lia.
  - rewrite Pos.iter_succ, Pos2Z.inj_xO, IH, Pos2Z.inj_succ, Z.pow_succ_r by lia. lia.
Qed.

(** An integer below [2^53] is a binary64 number: its mantissa is the
    integer shifted left to 53 digits. *)
Lemma of_Z_exact (z : Z) :
  0 < z < 2 ^ 53 ->
  exists (m : positive) (a : Z),
    Number.of_Z z = S754_finite false m (- a)
    /\ 0 <= a <= 52
    /\ Zpos m = z * 2 ^ a
    /\ 2 ^ 52 <= Zpos m < 2 ^ 53.
Proof.
  intros Hz. destruct z as [|p|p]; try lia.
  unfold Number.of_Z, binary_normalize, binary_round.
  pose proof (digits2_pos_bounds p) as Hb.
  set (d := Zpos (digits2_pos p)) in *.
  assert (Hd : 1 <= d <= 53).
  { split; [unfold d; lia |].
    destruct (Z_le_gt_dec d 53) as [|Hgt]; [assumption | exfalso].
    assert (2 ^ 53 <= 2 ^ (d - 1)) by (apply Z.pow_le_mono_r; lia). lia. }
  change Number.prec with 53. change Number.emax with 1024.
  rewrite fexp_normal by lia. unfold shl_align.
  replace (d + 0 - 53 - 0) with (d - 53) by lia.
  destruct (d - 53) as [|x|x] eqn:Hx; try lia.
  - assert (HM : 2 ^ 52 <= Zpos p < 2 ^ 53)
      by (replace d with 53 in Hb by lia; exact Hb).
    rewrite binary_round_aux_exact by (try exact HM; lia).
    exists p, 0. change (2 ^ 0) with 1. repeat split; lia.
  - assert (Hsplit : 2 ^ 53 = 2 ^ d * 2 ^ Zpos x)
      by (rewrite <- Z.pow_add_r by lia; f_equal; lia).
    assert (Hsplit' : 2 ^ 52 = 2 ^ (d - 1) * 2 ^ Zpos x)
      by (rewrite <- Z.pow_add_r by lia; f_equal; lia).
    assert (Hp2 : 0 < 2 ^ Zpos x) by (apply Z.pow_pos_nonneg; lia).
    assert (HM : 2 ^ 52 <= Zpos (Pos.iter xO p x) < 2 ^ 53)
      by (rewrite Zpos_iter_xO; nia).
    replace (d + 0 - 53) with (- Zpos x) by lia.
    rewrite binary_round_aux_exact by (try exact HM; lia).
    exists (Pos.iter xO p x), (Zpos x). repeat split; try lia.
    apply Zpos_iter_xO.
Qed.

(** Quotient of two normal positive numbers: the mantissa of the result,
    in units of the last place of a 53-digit quotient, is within two units
    of the exact quotient. *)
Lemma div_faithful (mk mn : positive) (ek en : Z) :
  2 ^ 52 <= Zpos mk < 2 ^ 53 -> 2 ^ 52 <= Zpos mn < 2 ^ 53 ->
  -100 <= ek <= 100 -> -100 <= en <= 100 ->
  exists (M : positive) (j : Z),
    Number.div (S754_finite false mk ek) (S754_finite false mn en)
    = S754_finite false M (ek - en - 53 + j)
    /\ 0 <= j <= 2
    /\ 2 ^ 52 <= Zpos M < 2 ^ 53
    /\ (Zpos M * 2 ^ j - 2) * Zpos mn <= Zpos mk * 2 ^ 53
       < (Zpos M * 2 ^ j + 2) * Zpos mn.
Proof.
  intros Hk Hn Hek Hen.
  unfold Number.div, SFdiv, SFdiv_core_binary.
  change Number.prec with 53. change Number.emax with 1024.
  rewrite (Zdigits2_unique (Zpos mk) 53), (Zdigits2_unique (Zpos mn) 53) by (try assumption; lia).
  rewrite fexp_normal by lia.
  replace (Z.min (53 + ek - (53 + en) - 53) (ek - en)) with (ek - en - 53) by lia.
  replace (ek - en - (ek - en - 53)) with 53 by lia.
  cbv beta iota. rewrite Z.shiftl_mul_pow2 by lia.
  pose proof (Z_div_mod (Zpos mk * 2 ^ 53) (Zpos mn) ltac:(lia)) as Hdm.
  destruct (Z.div_eucl (Zpos mk * 2 ^ 53) (Zpos mn)) as [q r].
  destruct Hdm as [Hdm Hr]. cbn [xorb].
  assert (Hq : 2 ^ 52 <= q < 2 ^ 54) by nia.
  destruct (Z_lt_le_dec q (2 ^ 53)) as [Hlt|Hge].
  - destruct (binary_round_aux_faithful q (ek - en - 53) (new_location (Zpos mn) r) 53)
      as (M & c & -> & Hc & HM & Hb); try lia.
    change (2 ^ (53 - 53)) with 1 in Hb.
    exists M, c. replace (ek - en - 53 + (53 - 53) + c) with (ek - en - 53 + c) by lia.
    repeat split; try lia; nia.
  - destruct (binary_round_aux_faithful q (ek - en - 53) (new_location (Zpos mn) r) 54)
      as (M & c & -> & Hc & HM & Hb); try lia.
    change (2 ^ (54 - 53)) with 2 in Hb.
    exists M, (1 + c). replace (ek - en - 53 + (54 - 53) + c) with (ek - en - 53 + (1 + c)) by lia.
    rewrite Z.pow_add_r by lia. change (2 ^ 1) with 2.
    repeat split; try lia; nia.
Qed.

(** Product of a normal positive number with the number 100. *)
Lemma mul_100_faithful (M : positive) (E : Z) :
  2 ^ 52 <= Zpos M < 2 ^ 53 -> -300 <= E <= 300 ->
  exists (MY : positive) (g : Z),
    Number.mul (S754_finite false M E) (Number.of_Z 100)
    = S754_finite false MY (E + g)
    /\ 6 <= g <= 8
    /\ 2 ^ 52 <= Zpos MY < 2 ^ 53
    /\ 100 * Zpos M - 128 < Zpos MY * 2 ^ g <= 100 * Zpos M + 128.
Proof.
  intros HM HE.
  change (Number.of_Z 100) with (S754_finite false 7036874417766400 (-46)).
  unfold Number.mul, SFmul. cbn [xorb].
  change Number.prec with 53. change Number.emax with 1024.
  rewrite Pos2Z.inj_mul.
  change (Zpos 7036874417766400) with (100 * 2 ^ 46).
  set (P := Zpos M * (100 * 2 ^ 46)).
  destruct (Z_lt_le_dec P (2 ^ 105)) as [Hlt|Hge].
  - destruct (binary_round_aux_faithful P (E + -46) loc_Exact 105)
      as (MY & c & -> & Hc & HMY & Hb); try (unfold P; lia).
    change (2 ^ (105 - 53)) with (64 * 2 ^ 46) in Hb.
    exists MY, (6 + c). replace (E + -46 + (105 - 53) + c) with (E + (6 + c)) by lia.
    rewrite Z.pow_add_r by lia. change (2 ^ 6) with 64.
    unfold P in Hb. repeat split; try lia; nia.
  - destruct (binary_round_aux_faithful P (E + -46) loc_Exact 106)
      as (MY & c & -> & Hc & HMY & Hb); try (unfold P; lia).
    change (2 ^ (106 - 53)) with (128 * 2 ^ 46) in Hb.
    exists MY, (7 + c). replace (E + -46 + (106 - 53) + c) with (E + (7 + c)) by lia.
    rewrite Z.pow_add_r by lia. change (2 ^ 7) with 128.
    unfold P in Hb. repeat split; try lia; nia.
Qed.

(** [Math.round] of a positive number with a fractional part. *)
Lemma round_floor (MY : positive) (EY : Z) :
  EY < 0 ->
  Math.round (S754_finite false MY EY)
  = Number.of_Z ((Zpos MY + 2 ^ (- EY - 1)) / 2 ^ (- EY)).
Proof.
  intros HE. unfold Math.round.
  replace (0 <=? EY) with false by (symmetry; apply Z.leb_gt; lia).
  reflexivity.
Qed.

(** The arithmetic core: from the three roundings to the nearest-integer
    bracket. *)
Lemma nearest_arith (k n A B M J MY G PN r : Z) :
  0 < k -> 0 < n -> 0 < B -> 2 ^ 21 <= A -> n * B < 2 ^ 53 ->
  1 <= J <= 4 -> 0 < G -> 0 < PN ->
  PN * J * G * B = 2 ^ 53 * A ->
  (M * J - 2) * (n * B) <= k * A * 2 ^ 53 < (M * J + 2) * (n * B) ->
  100 * M - 128 < MY * G <= 100 * M + 128 ->
  2 * r * PN <= 2 * MY + PN < 2 * (r + 1) * PN ->
  n * (2 * r - 1) <= 200 * k <= n * (2 * r + 1).
Proof.
  intros Hk Hn HB HA HnB HJ HG HPN HW F1 F2 F3.
  set (W := PN * J * G) in *.
  assert (HWpos : 0 < W) by (unfold W; nia).
  assert (HkW : k * W * B = k * A * 2 ^ 53)
    by (rewrite <- Z.mul_assoc, HW; ring).
  assert (H1 : (M * J - 2) * n <= k * W < (M * J + 2) * n).
  { split.
    - apply Z.mul_le_mono_pos_r with (p := B); [lia |].
      rewrite HkW, <- Z.mul_assoc. lia.
    - apply Z.mul_lt_mono_pos_r with (p := B); [lia |].
      rewrite HkW, <- Z.mul_assoc. lia. }
  assert (H2 : 2 * r * W <= 2 * (MY * G * J) + W < 2 * (r + 1) * W).
  { assert (HJG : 0 < J * G) by nia.
    split.
    - replace (2 * r * W) with (2 * r * PN * (J * G)) by (unfold W; ring).
      replace (2 * (MY * G * J) + W) with ((2 * MY + PN) * (J * G)) by (unfold W; ring).
      apply Z.mul_le_mono_nonneg_r; lia.
    - replace (2 * (r + 1) * W) with (2 * (r + 1) * PN * (J * G)) by (unfold W; ring).
      replace (2 * (MY * G * J) + W) with ((2 * MY + PN) * (J * G)) by (unfold W; ring).
      apply Z.mul_lt_mono_pos_r; lia. }
  assert (H3 : 100 * (M * J) - 512 < MY * G * J <= 100 * (M * J) + 512) by nia.
  assert (HWn : 1424 * n < W).
  { apply Z.mul_lt_mono_pos_r with (p := B); [lia |].
    rewrite HW. nia. }
  set (X := M * J) in *. set (Y := MY * G * J) in *.
  assert (Hup : W * (n * (2 * r - 1) - 200 * k) < W) by nia.
  assert (Hdn : - W < W * (n * (2 * r + 1) - 200 * k)) by nia.
  split; nia.
Qed.

Lemma pow2_range (x lo hi : Z) :
  0 <= lo -> lo <= x <= hi -> 2 ^ lo <= 2 ^ x <= 2 ^ hi.
Proof. intros. split; apply Z.pow_le_mono_r; lia. Qed.

(** An array length has at most 32 digits, so at least 21 are shifted in. *)
Lemma of_Z_exact32 (z : Z) :
  0 < z < 2 ^ 32 ->
  exists (m : positive) (a : Z),
    Number.of_Z z = S754_finite false m (- a)
    /\ 21 <= a <= 52
    /\ Zpos m = z * 2 ^ a
    /\ 2 ^ 52 <= Zpos m < 2 ^ 53.
Proof.
  intros Hz. destruct (of_Z_exact z) as (m & a & Heq & Ha & Hm & Hr); [lia |].
  exists m, a. repeat split; try assumption; try lia.
  destruct (Z_le_gt_dec 21 a) as [|Hlt]; [assumption | exfalso].
  pose proof (pow2_range a 0 20 ltac:(lia) ltac:(lia)) as Hp. nia.
Qed.

(** [Math.round((k / n) * 100)] on two positive array lengths is an
    integer nearest to the exact value of [100 * k / n]. *)
Lemma percent_nearest (k n : Z) :
  0 < k < 2 ^ 32 -> 0 < n < 2 ^ 32 ->
  exists r : Z,
    Math.round (Number.mul (Number.div (Number.of_Z k) (Number.of_Z n))
                             (Number.of_Z 100))
    = Number.of_Z r
    /\ n * (2 * r - 1) <= 200 * k <= n * (2 * r + 1).
Proof.
  intros Hk Hn.
  destruct (of_Z_exact32 k Hk) as (mk & a & -> & Ha & Hmk & Hrk).
  destruct (of_Z_exact32 n Hn) as (mn & b & -> & Hb & Hmn & Hrn).
  destruct (div_faithful mk mn (- a) (- b)) as (M & j & -> & Hj & HM & F1); try lia.
  destruct (mul_100_faithful M (- a - - b - 53 + j)) as (MY & g & -> & Hg & HMY & F2);
    try lia.
  set (EY := - a - - b - 53 + j + g).
  assert (HEY : EY <= -12) by (unfold EY; lia).
  rewrite round_floor by lia.
  set (r := (Zpos MY + 2 ^ (- EY - 1)) / 2 ^ (- EY)).
  exists r. split; [reflexivity |].
  assert (HPN : 0 < 2 ^ (- EY)) by (apply Z.pow_pos_nonneg; lia).
  assert (Hhalf : 2 ^ (- EY) = 2 * 2 ^ (- EY - 1))
    by (rewrite <- Z.pow_succ_r by lia; f_equal; lia).
  assert (F3 : 2 * r * 2 ^ (- EY) <= 2 * Zpos MY + 2 ^ (- EY) < 2 * (r + 1) * 2 ^ (- EY)).
  { pose proof (Z.mul_div_le (Zpos MY + 2 ^ (- EY - 1)) (2 ^ (- EY)) HPN).
    pose proof (Z.mul_succ_div_gt (Zpos MY + 2 ^ (- EY - 1)) (2 ^ (- EY)) HPN).
    fold r in H, H0. lia. }
  pose proof (pow2_range j 0 2 ltac:(lia) Hj) as HJ.
  pose proof (pow2_range a 21 52 ltac:(lia) Ha) as HA.
  assert (HB : 0 < 2 ^ b) by (apply Z.pow_pos_nonneg; lia).
  assert (HG : 0 < 2 ^ g) by (apply Z.pow_pos_nonneg; lia).
  assert (HnB : n * 2 ^ b < 2 ^ 53) by (rewrite <- Hmn; lia).
  assert (HJ' : 1 <= 2 ^ j <= 4) by exact HJ.
  assert (HW : 2 ^ (- EY) * 2 ^ j * 2 ^ g * 2 ^ b = 2 ^ 53 * 2 ^ a)
    by (rewrite <- !Z.pow_add_r by lia; f_equal; unfold EY; lia).
  rewrite Hmk, Hmn in F1.
  exact (nearest_arith k n (2 ^ a) (2 ^ b) (Zpos M) (2 ^ j) (Zpos MY) (2 ^ g)
           (2 ^ (- EY)) r (proj1 Hk) (proj1 Hn) HB (proj1 HA) HnB HJ' HG HPN HW F1 F2 F3).
Qed.

Lemma percent_zero (n : Z) :
  0 < n < 2 ^ 32 ->
  Math.round (Number.mul (Number.div (Number.of_Z 0) (Number.of_Z n))
                           (Number.of_Z 100))
  = Number.of_Z 0.
Proof.
  intros Hn. destruct (of_Z_exact32 n Hn) as (mn & b & -> & _). reflexivity.
Qed.

End Binary64.

(** ** Progress aggregator *)

Section Aggregator.

Local Open Scope Z_scope.

Lemma includes_elem_of (l : list string) (x : string) :
  includes l x = true <-> x ∈ l.
Proof.
  unfold includes. rewrite existsb_exists, list_elem_of_In. split.
  - intros (y & Hin & Heq). apply String.eqb_eq in Heq. now subst.
  - intros Hin. exists x. split; [assumption | apply String.eqb_refl].
Qed.

Lemma completedInTrack_le (progress : UserProgress) (path : Track.t) :
  (completedInTrack progress path <= length (Track.topics path))%nat.
Proof. unfold completedInTrack. apply List.filter_length_le. Qed.

Lemma completedInTrack_all (progress : UserProgress) (path : Track.t) :
  (forall t, t ∈ Track.topics path -> Topic.id t ∈ completedTopicIds progress) ->
  completedInTrack progress path = length (Track.topics path).
Proof.
  unfold completedInTrack. induction (Track.topics path) as [|t l IH]; intros Hall.
  - reflexivity.
  - cbn [List.filter].
    assert (Ht : includes (completedTopicIds progress) (Topic.id t) = true)
      by (apply includes_elem_of, Hall; left).
    rewrite Ht. cbn [length]. f_equal. apply IH.
    intros t' Ht'. apply Hall. now right.
Qed.

(** The percentage of two array lengths, [0 <= k] and [0 < n]. *)
Lemma percent_bracket (k n : Z) :
  0 <= k < 2 ^ 32 -> 0 < n < 2 ^ 32 ->
  exists r : Z,
    Math.round (Number.mul (Number.div (Number.of_Z k) (Number.of_Z n))
                             (Number.of_Z 100))
    = Number.of_Z r
    /\ n * (2 * r - 1) <= 200 * k <= n * (2 * r + 1).
Proof.
  intros Hk Hn. destruct (Z.eq_dec k 0) as [->|Hk0].
  - exists 0. split; [apply percent_zero; assumption | lia].
  - apply percent_nearest; lia.
Qed.

(** Off a tie the bracket pins the rounded ratio. *)
Lemma round_ratio_of_bracket (k n r : Z) :
  0 < n -> n * (2 * r - 1) <= 200 * k < n * (2 * r + 1) ->
  Spec.round_ratio (100 * k) n = r.
Proof.
  intros Hn Hb. unfold Spec.round_ratio. symmetry.
  apply Z.div_unique with (r := 2 * (100 * k) + n - 2 * n * r); lia.
Qed.

(** What the code computes for the global rate: the count of all the
    completed ids over the topics of the matched tracks. *)
Lemma globalCompletionRate_nearest (CURRICULUM : list Track.t)
    (progress : UserProgress) :
  let C := Z.of_nat (totalCompletedTopics progress) in
  let T := Z.of_nat (totalPossibleTopics (activeTracks CURRICULUM progress)) in
  C < 2 ^ 32 -> T < 2 ^ 32 ->
  exists r : Z,
    globalCompletionRate CURRICULUM progress = Number.of_Z r
    /\ (T <> 0 -> T * (2 * r - 1) <= 200 * C <= T * (2 * r + 1))
    /\ (T = 0 -> r = 0).
Proof.
  intros C T HC HT. unfold globalCompletionRate. cbv zeta.
  destruct (0 <? totalPossibleTopics (activeTracks CURRICULUM progress))%nat eqn:Hpos.
  - apply Nat.ltb_lt in Hpos.
    destruct (percent_bracket C T) as (r & Hr & Hb); [lia | lia |].
    exists r. unfold Number.of_nat. fold C T.
    split; [exact Hr |]. split; [intros _; exact Hb | lia].
  - apply Nat.ltb_ge in Hpos. exists 0.
    split; [reflexivity |]. split; lia.
Qed.

(** Scenario 6 of the specification: of the two topics of the matched
    track one is completed, the rate is 50. *)
Example trackRate_half :
  activeTracks [Sample.webTrack 2] (Sample.firstCompleted 1) = [Sample.webTrack 2]
  /\ trackRate (Sample.firstCompleted 1) (Sample.webTrack 2) = Number.of_Z 50.
Proof. split; vm_compute; reflexivity. Qed.

(** An exact tie that is a binary64 number goes up: 1 of 8 is 12.5 and
    shows 13. *)
Example trackRate_tie_up :
  trackRate (Sample.firstCompleted 1) (Sample.webTrack 8) = Number.of_Z 13.
Proof. vm_compute. reflexivity. Qed.

(** C1 (failing input). The catalogue has a JavaScript track with the
    topic [t0] and a Python track with the topic [t9]; the learner prefers
    JavaScript and has completed both topics. Only the JavaScript track is
    matched. The specified rate counts [t0] alone and is 100; the code
    divides the length of [completedTopicIds] by the topic count of the
    matched track and shows 200. *)
Theorem globalCompletionRate_counts_unmatched_ids :
  activeTracks [Sample.webTrack 1; Sample.pythonTrack]
               (Sample.progress Sample.webConfig ["t0"; "t9"]%string)
  = [Sample.webTrack 1]
  /\ Spec.globalCompletion
       (activeTracks [Sample.webTrack 1; Sample.pythonTrack]
                     (Sample.progress Sample.webConfig ["t0"; "t9"]%string))
       ["t0"; "t9"]%string
     = 100
  /\ globalCompletionRate [Sample.webTrack 1; Sample.pythonTrack]
                          (Sample.progress Sample.webConfig ["t0"; "t9"]%string)
     = Number.of_Z 200
  /\ Number.of_Z 200 <> Number.of_Z 100.
Proof.
  split; [vm_compute; reflexivity |].
  split; [vm_compute; reflexivity |].
  split; [vm_compute; reflexivity |].
  vm_compute. discriminate.
Qed.

(** C3 (counterexample). Of the 40 topics of a track 23 are completed:
    [100 * 23 / 40] is 57.5 and rounds to 58, but 23/40 is no binary64
    number, the quotient is just below it, its product with 100 is
    57.49999999999999 and [Math.round] gives 57. And an empty track has
    every topic id completed, yet its rate is 0 and not 100. *)
Lemma trackRate_not_round_ratio :
  (Z.of_nat (completedInTrack (Sample.firstCompleted 23) (Sample.webTrack 40)) = 23
   /\ Z.of_nat (length (Track.topics (Sample.webTrack 40))) = 40
   /\ Spec.round_ratio (100 * 23) 40 = 58
   /\ trackRate (Sample.firstCompleted 23) (Sample.webTrack 40) = Number.of_Z 57
   /\ trackRate (Sample.firstCompleted 23) (Sample.webTrack 40)
      <> Number.of_Z
           (Spec.round_ratio
              (100 * Z.of_nat (completedInTrack (Sample.firstCompleted 23)
                                                (Sample.webTrack 40)))
              (Z.of_nat (length (Track.topics (Sample.webTrack 40))))))
  /\ ((forall t, t ∈ Track.topics (Sample.webTrack 0) ->
                 Topic.id t ∈ completedTopicIds (Sample.firstCompleted 0))
      /\ trackRate (Sample.firstCompleted 0) (Sample.webTrack 0) = Number.of_Z 0
      /\ trackRate (Sample.firstCompleted 0) (Sample.webTrack 0) <> Number.of_Z 100).
Proof.
  split.
  - split; [vm_compute; reflexivity |].
    split; [vm_compute; reflexivity |].
    split; [vm_compute; reflexivity |].
    split; [vm_compute; reflexivity |].
    vm_compute. discriminate.
  - split; [| split].
    + intros t Ht. cbn in Ht. inversion Ht.
    + vm_compute. reflexivity.
    + vm_compute. discriminate.
Qed.

(** C3 (amended). For a track with fewer than [2^32] topics, as every
    array has, the per-track completion is an integer percent [r] in
    [0,100] nearest to [100 * K / T], where [K] of the [T] topics are
    completed: it equals [round(100 * K / T)] unless [100 * K / T] lies
    exactly half way between two integers, where the binary64 quotient
    decides which of the two is shown. It is 0 when the track has no
    topic, and otherwise 100 when every topic id is completed. *)
Theorem trackRate_nearest_percent (progress : UserProgress) (path : Track.t) :
  let K := Z.of_nat (completedInTrack progress path) in
  let T := Z.of_nat (length (Track.topics path)) in
  T < 2 ^ 32 ->
  exists r : Z,
    trackRate progress path = Number.of_Z r
    /\ 0 <= r <= 100
    /\ T * (2 * r - 1) <= 200 * K <= T * (2 * r + 1)
    /\ (r = Spec.round_ratio (100 * K) T \/ 200 * K = T * (2 * r + 1))
    /\ (T = 0 -> r = 0)
    /\ (T <> 0 ->
        (forall t, t ∈ Track.topics path -> Topic.id t ∈ completedTopicIds progress) ->
        r = 100).
Proof.
  intros K T HT.
  pose proof (completedInTrack_le progress path) as Hle.
  assert (HK : 0 <= K <= T) by (unfold K, T; lia).
  unfold trackRate.
  destruct (0 <? length (Track.topics path))%nat eqn:Hpos.
  - apply Nat.ltb_lt in Hpos.
    destruct (percent_bracket K T) as (r & Hr & Hb); [lia | lia |].
    exists r. unfold Number.of_nat. fold K T.
    split; [exact Hr |]. split; [nia |]. split; [exact Hb |].
    split; [| split].
    + destruct (Z.eq_dec (200 * K) (T * (2 * r + 1))) as [Htie|Hoff];
        [right; exact Htie | left].
      symmetry. apply round_ratio_of_bracket; lia.
    + lia.
    + intros _ Hall. apply completedInTrack_all in Hall.
      assert (K = T) by (unfold K, T; lia). nia.
  - apply Nat.ltb_ge in Hpos. assert (T = 0) by (unfold T; lia).
    assert (K = 0) by lia.
    exists 0. replace K with 0 by lia. replace T with 0 by lia.
    split; [reflexivity |]. split; [lia |]. split; [lia |].
    split; [left; reflexivity |]. split; [reflexivity | intros Hne; now elim Hne].
Qed.

Lemma trackRate_nearest_percent_witness :
  Z.of_nat (length (Track.topics (Sample.webTrack 40))) < 2 ^ 32
  /\ exists r : Z,
       trackRate (Sample.firstCompleted 23) (Sample.webTrack 40) = Number.of_Z r
       /\ 0 <= r <= 100.
Proof.
  assert (H : Z.of_nat (length (Track.topics (Sample.webTrack 40))) < 2 ^ 32)
    by (vm_compute; reflexivity).
  split; [exact H |].
  destruct (trackRate_nearest_percent (Sample.firstCompleted 23) (Sample.webTrack 40) H)
    as (r & Hr & Hrange & _).
  exists r. split; assumption.
Defined.

End Aggregator.

(** ** Track matcher *)

Section Matcher.

Lemma or_else_level (c : Config.t) :
  JsString.or_else (Config.level c) "Beginner" = Spec.level_of c.
Proof.
  unfold JsString.or_else, Spec.level_of.
  destruct (Config.level c) as [[|a l]|]; reflexivity.
Qed.

Lemma or_else_language (c : Config.t) :
  JsString.or_else (Config.language c) "" = Spec.language_of c.
Proof.
  unfold JsString.or_else, Spec.language_of.
  destruct (Config.language c) as [[|a l]|]; reflexivity.
Qed.

Lemma toLowerCase_empty (s : string) :
  JsString.toLowerCase s = "" -> s = "".
Proof. destruct s; [reflexivity | discriminate]. Qed.

(** The callback of the filter decides the specified conditions. *)
Lemma activeTracks_keep_matched (progress : UserProgress) (prefs : Preferences)
    (t : Track.t) :
  activeTracks_keep progress prefs t = true <-> Spec.matched progress prefs t.
Proof.
  unfold activeTracks_keep, Spec.matched, Spec.equal_ignoring_case, Spec.libraries_of.
  destruct (includes (activeDomains progress) (Track.domain t)) eqn:Hdom; cbn [negb].
  2: { split; [discriminate | intros [Hin _]].
       apply includes_elem_of in Hin. congruence. }
  apply includes_elem_of in Hdom.
  destruct (configs prefs !! Track.domain t) as [c|] eqn:Hcfg.
  2: { split; [discriminate | intros (_ & c & Hc & _); discriminate]. }
  rewrite or_else_level, or_else_language.
  destruct (JsString.toLowerCase (Track.level t)
            =? JsString.toLowerCase (Spec.level_of c))%string eqn:Hlevel; cbn [negb].
  2: { apply String.eqb_neq in Hlevel.
       split; [discriminate | intros (_ & c' & Hc & Hl & _)].
       congruence. }
  apply String.eqb_eq in Hlevel.
  destruct (Track.domain t =? "ML")%string eqn:Hml.
  - apply String.eqb_eq in Hml. rewrite includes_elem_of. split.
    + intros Hin. split; [assumption |]. exists c.
      split; [reflexivity |]. split; [assumption |].
      destruct (decide (Track.domain t = "ML")); [assumption | contradiction].
    + intros (_ & c' & Hc & _ & Hin). injection Hc as <-.
      destruct (decide (Track.domain t = "ML")); [assumption | contradiction].
  - apply String.eqb_neq in Hml. rewrite String.eqb_eq. split.
    + intros Heq. split; [assumption |]. exists c.
      split; [reflexivity |]. split; [assumption |].
      destruct (decide (Track.domain t = "ML")); [contradiction | assumption].
    + intros (_ & c' & Hc & _ & Heq). injection Hc as <-.
      destruct (decide (Track.domain t = "ML")); [contradiction | assumption].
Qed.

Lemma filter_keep_matched (progress : UserProgress) (prefs : Preferences)
    (CURRICULUM : list Track.t) :
  List.filter (activeTracks_keep progress prefs) CURRICULUM
  = filter (Spec.matched progress prefs) CURRICULUM.
Proof.
  induction CURRICULUM as [|t l IH]; [reflexivity |].
  cbn [List.filter]. rewrite filter_cons, IH.
  destruct (decide (Spec.matched progress prefs t)) as [Hm|Hm].
  - apply activeTracks_keep_matched in Hm. now rewrite Hm.
  - destruct (activeTracks_keep progress prefs t) eqn:Hk; [| reflexivity].
    apply activeTracks_keep_matched in Hk. contradiction.
Qed.

(** C2. Without preferences the matcher returns the empty sequence;
    otherwise it returns, in catalogue order, exactly the tracks whose
    domain is active, for whose domain a config exists, whose level equals
    the config's level (["Beginner"] when empty or absent) ignoring case,
    and whose [languageOrTech] is, for the ML domain, a member of the
    config's libraries and, for another domain, equal to the config's
    language ignoring case. *)
Theorem activeTracks_filters_matched (CURRICULUM : list Track.t)
    (progress : UserProgress) :
  activeTracks CURRICULUM progress
  = match preferences progress with
    | None => []
    | Some prefs => filter (Spec.matched progress prefs) CURRICULUM
    end.
Proof.
  unfold activeTracks. destruct (preferences progress) as [prefs|];
    [apply filter_keep_matched | reflexivity].
Qed.

(** C8 (counterexample). The Web config has no language and no library,
    and the Web track whose [languageOrTech] is the empty string is
    matched: the empty default equals it. *)
Lemma blank_track_matches_empty_language :
  Track.domain Sample.blankTrack <> "ML"
  /\ configs (Sample.webPrefs Sample.emptyConfig) !! Track.domain Sample.blankTrack
     = Some Sample.emptyConfig
  /\ Config.language Sample.emptyConfig = None
  /\ Config.libraries Sample.emptyConfig = None
  /\ Sample.blankTrack
     ∈ activeTracks [Sample.blankTrack] (Sample.progress Sample.emptyConfig []).
Proof.
  split; [discriminate |].
  split; [vm_compute; reflexivity |].
  split; [reflexivity |]. split; [reflexivity |].
  vm_compute. left.
Qed.

(** C8 (amended). For a non-ML domain with a config whose language is
    empty or absent and whose libraries are empty or absent, a track of
    that domain is matched exactly when its [languageOrTech] is the empty
    string too (and its domain is active and its level matches): every
    track with a non-empty [languageOrTech] is excluded. *)
Theorem empty_language_matches_only_blank (CURRICULUM : list Track.t)
    (progress : UserProgress) (prefs : Preferences) (c : Config.t) (t : Track.t) :
  preferences progress = Some prefs ->
  configs prefs !! Track.domain t = Some c ->
  Track.domain t <> "ML" ->
  Config.language c = None \/ Config.language c = Some "" ->
  Config.libraries c = None \/ Config.libraries c = Some [] ->
  (t ∈ activeTracks CURRICULUM progress
   <-> t ∈ CURRICULUM
       /\ Track.domain t ∈ activeDomains progress
       /\ Spec.equal_ignoring_case (Track.level t) (Spec.level_of c)
       /\ Track.languageOrTech t = "")
  /\ (Track.languageOrTech t <> "" -> t ∉ activeTracks CURRICULUM progress).
Proof.
  intros Hprefs Hcfg Hml Hlang _.
  assert (Hdefault : Spec.language_of c = "")
    by (unfold Spec.language_of; destruct Hlang as [-> | ->]; reflexivity).
  assert (Hiff : t ∈ activeTracks CURRICULUM progress
                 <-> t ∈ CURRICULUM
                     /\ Track.domain t ∈ activeDomains progress
                     /\ Spec.equal_ignoring_case (Track.level t) (Spec.level_of c)
                     /\ Track.languageOrTech t = "").
  { unfold activeTracks. rewrite Hprefs, filter_keep_matched, list_elem_of_filter.
    unfold Spec.matched. split.
    - intros ((Hdom & c' & Hc & Hlevel & Htech) & Hin).
      rewrite Hcfg in Hc. injection Hc as <-.
      destruct (decide (Track.domain t = "ML")); [contradiction |].
      unfold Spec.equal_ignoring_case in Htech. rewrite Hdefault in Htech.
      apply toLowerCase_empty in Htech. auto.
    - intros (Hin & Hdom & Hlevel & Hblank). split; [| assumption].
      split; [assumption |]. exists c. split; [assumption |].
      split; [assumption |].
      destruct (decide (Track.domain t = "ML")); [contradiction |].
      unfold Spec.equal_ignoring_case. now rewrite Hdefault, Hblank. }
  split; [exact Hiff |].
  intros Hne Hin. apply Hiff in Hin. tauto.
Qed.

Lemma empty_language_matches_only_blank_witness :
  Sample.webTrack 1
  ∉ activeTracks [Sample.webTrack 1; Sample.blankTrack]
                 (Sample.progress Sample.emptyConfig []).
Proof.
  apply (empty_language_matches_only_blank
           [Sample.webTrack 1; Sample.blankTrack]
           (Sample.progress Sample.emptyConfig [])
           (Sample.webPrefs Sample.emptyConfig) Sample.emptyConfig
           (Sample.webTrack 1)).
  - reflexivity.
  - vm_compute. reflexivity.
  - discriminate.
  - left. reflexivity.
  - left. reflexivity.
  - discriminate.
Defined.

End Matcher.

(** ** Async handlers: one invocation *)

Section Handlers.

Local Open Scope list_scope.

Lemma truthy_false (s : string) : JsString.truthy s = false <-> s = "".
Proof. destruct s; cbn; split; congruence. Qed.

Lemma handleSendMessage_rejected (render : State) :
  JsString.trim (chatInput render) = "" \/ isSending render = true ->
  handleSendMessage render = Return.
Proof.
  intros [Hblank|Hsending]; unfold handleSendMessage.
  - now rewrite Hblank.
  - rewrite Hsending, orb_true_r. reflexivity.
Qed.

Lemma handleSendMessage_accepted (render : State) :
  JsString.trim (chatInput render) <> "" -> isSending render = false ->
  exists k : Settled (option string) -> Async,
    run (handleSendMessage render) render
    = (setIsSending true
         (setChatInput ""
            (setChatHistory
               (fun prev => prev ++ [{| role := user; text := chatInput render |}])
               render)),
       Suspended {| call := generateContent (chatInput render); resume := k |})
    /\ forall (o : Settled (option string)) (s : State),
         run (k o) s
         = (setIsSending false
              (setChatHistory
                 (fun prev => prev ++ [{| role := bot; text := botReply o |}]) s),
            Completed).
Proof.
  intros Hblank Hsending. unfold handleSendMessage.
  destruct (JsString.truthy (JsString.trim (chatInput render))) eqn:Htruthy;
    [| apply truthy_false in Htruthy; contradiction].
  rewrite Hsending. cbn [negb orb].
  eexists. split; [reflexivity |].
  intros [[reply|]|] s; reflexivity.
Qed.

Lemma start_rejected (sys : System) :
  JsString.trim (chatInput (state sys)) = "" \/ isSending (state sys) = true ->
  start (handleSendMessage (state sys)) sys = sys.
Proof.
  intros Hguard. unfold start.
  rewrite (handleSendMessage_rejected _ Hguard). cbn [run spawned].
  destruct sys as [s p]. cbn [state pending]. now rewrite app_nil_r.
Qed.

(** C7. When the draft, trimmed of white space, is empty, or when
    [isSending] is already true, [handleSendMessage] returns at once: no
    state is written, no call is made, and nothing joins the functions in
    flight. *)
Theorem handleSendMessage_noop (sys : System) :
  JsString.trim (chatInput (state sys)) = "" \/ isSending (state sys) = true ->
  run (handleSendMessage (state sys)) (state sys) = (state sys, Completed)
  /\ start (handleSendMessage (state sys)) sys = sys.
Proof.
  intros Hguard. split; [| now apply start_rejected].
  now rewrite (handleSendMessage_rejected _ Hguard).
Qed.

Lemma handleSendMessage_noop_witness :
  start (handleSendMessage (setChatInput "   " initialState))
        {| state := setChatInput "   " initialState; pending := [] |}
  = {| state := setChatInput "   " initialState; pending := [] |}.
Proof.
  apply (proj2 (handleSendMessage_noop
                  {| state := setChatInput "   " initialState; pending := [] |}
                  (or_introl eq_refl))).
Defined.

(** C5. An accepted [handleSendMessage] sets [isSending] and suspends
    on one [generateContent] call. When the call is fulfilled with a non-empty text, the history
    afterwards is the history at that moment followed by one message of
    the assistant with that text; when it is fulfilled with an empty or
    absent text, the message is the apology; when it is rejected, it is
    the connectivity error. On each of these paths [isSending] is false
    afterwards, the function completes, and no other cell is written. *)
Theorem handleSendMessage_reply (render : State) :
  JsString.trim (chatInput render) <> "" -> isSending render = false ->
  exists k : Settled (option string) -> Async,
    snd (run (handleSendMessage render) render)
    = Suspended {| call := generateContent (chatInput render); resume := k |}
    /\ isSending (fst (run (handleSendMessage render) render)) = true
    /\ forall s : State,
         (forall reply : string,
            reply <> "" ->
            chatHistory (fst (run (k (Fulfilled (Some reply))) s))
            = chatHistory s ++ [{| role := bot; text := reply |}])
         /\ chatHistory (fst (run (k (Fulfilled (Some ""))) s))
            = chatHistory s
              ++ [{| role := bot;
                     text := "I'm sorry, I couldn't process that request right now." |}]
         /\ chatHistory (fst (run (k (Fulfilled None)) s))
            = chatHistory s
              ++ [{| role := bot;
                     text := "I'm sorry, I couldn't process that request right now." |}]
         /\ chatHistory (fst (run (k Rejected) s))
            = chatHistory s
              ++ [{| role := bot;
                     text := "Error connecting to AI service. Please check your connection." |}]
         /\ forall o : Settled (option string),
              isSending (fst (run (k o) s)) = false
              /\ snd (run (k o) s) = Completed
              /\ chatInput (fst (run (k o) s)) = chatInput s
              /\ isChatOpen (fst (run (k o) s)) = isChatOpen s
              /\ motivation (fst (run (k o) s)) = motivation s
              /\ isMotivationLoading (fst (run (k o) s)) = isMotivationLoading s.
Proof.
  intros Hblank Hsending.
  destruct (handleSendMessage_accepted render Hblank Hsending) as (k & Hrun & Hk).
  exists k. split; [now rewrite Hrun |]. split; [now rewrite Hrun |].
  intros s.
  split; [| split; [| split; [| split]]].
  - intros reply Hreply. rewrite Hk. cbn [botReply JsString.or_else].
    destruct reply; [contradiction | reflexivity].
  - now rewrite Hk.
  - now rewrite Hk.
  - now rewrite Hk.
  - intros o. rewrite Hk. cbn [fst snd]. tauto.
Qed.

Lemma handleSendMessage_reply_witness :
  exists k : Settled (option string) -> Async,
    snd (run (handleSendMessage (state Sample.typed)) (state Sample.typed))
    = Suspended {| call := generateContent "hello"; resume := k |}
    /\ chatHistory (fst (run (k (Fulfilled (Some "Hi!"))) (state Sample.sent)))
       = [{| role := user; text := "hello" |}; {| role := bot; text := "Hi!" |}]
    /\ chatHistory (fst (run (k Rejected) (state Sample.sent)))
       = [{| role := user; text := "hello" |};
          {| role := bot;
             text := "Error connecting to AI service. Please check your connection." |}]
    /\ isSending (fst (run (k Rejected) (state Sample.sent))) = false.
Proof.
  destruct (handleSendMessage_reply (state Sample.typed))
    as (k & Hk & _ & Hpaths).
  - discriminate.
  - reflexivity.
  - exists k. split; [exact Hk |].
    destruct (Hpaths (state Sample.sent)) as (Htext & _ & _ & Hrejected & Hflag).
    split; [apply Htext; discriminate |].
    split; [exact Hrejected | apply Hflag].
Defined.

(** C6. [fetchMotivation] raises the loading flag and suspends on the
    session call. If that call is rejected, or if the query that follows
    it is rejected, [motivation] is afterwards the same fixed sentence,
    which is not the one used for an empty quote, and
    [isMotivationLoading] is false; on the remaining path, the fulfilled
    query, [motivation] is the quote, or the other fixed sentence when the
    quote is empty or absent, and [isMotivationLoading] is false as well.
    Every path completes. *)
Theorem fetchMotivation_paths (name : string) (s : State) :
  exists k1 : Settled string -> Async,
    snd (run (fetchMotivation name) s)
    = Suspended {| call := createOnDemandSession name; resume := k1 |}
    /\ isMotivationLoading (fst (run (fetchMotivation name) s)) = true
    /\ motivation (fst (run (fetchMotivation name) s)) = motivation s
    /\ (forall s1 : State,
          snd (run (k1 Rejected) s1) = Completed
          /\ motivation (fst (run (k1 Rejected) s1))
             = "Success is the sum of small efforts, repeated day-in and day-out."
          /\ isMotivationLoading (fst (run (k1 Rejected) s1)) = false)
    /\ (forall (s1 : State) (sid : string),
        exists k2 : Settled (option string) -> Async,
          run (k1 (Fulfilled sid)) s1
          = (s1,
             Suspended {| call := queryOnDemand sid "Give me a motivation quote for today.";
                          resume := k2 |})
          /\ (forall s2 : State,
                snd (run (k2 Rejected) s2) = Completed
                /\ motivation (fst (run (k2 Rejected) s2))
                   = "Success is the sum of small efforts, repeated day-in and day-out."
                /\ isMotivationLoading (fst (run (k2 Rejected) s2)) = false)
          /\ (forall (s2 : State) (quote : option string),
                snd (run (k2 (Fulfilled quote)) s2) = Completed
                /\ motivation (fst (run (k2 (Fulfilled quote)) s2))
                   = match quote with
                     | Some (String c q) => String c q
                     | _ => "Consistency is the key to mastering your career path."
                     end
                /\ isMotivationLoading (fst (run (k2 (Fulfilled quote)) s2)) = false))
    /\ "Success is the sum of small efforts, repeated day-in and day-out."
       <> "Consistency is the key to mastering your career path.".
Proof.
  eexists. split; [reflexivity |]. split; [reflexivity |]. split; [reflexivity |].
  split; [intros s1; repeat split |]. split; [| discriminate].
  intros s1 sid. eexists. split; [reflexivity |]. split.
  - intros s2. repeat split.
  - intros s2 [[|c q]|]; repeat split.
Qed.

End Handlers.

(** ** The running component *)

Section Component.

Local Open Scope list_scope.

Lemma start_unfold (p : Async) (sys : System) :
  start p sys
  = {| state := fst (run p (state sys));
       pending := pending sys ++ spawned (snd (run p (state sys))) |}.
Proof. unfold start. now destruct (run p (state sys)). Qed.

Lemma in_flight_pending (s : State) (l : list Task) :
  in_flight {| state := s; pending := l |}
  = length (List.filter (fun t => is_chat_call (call t)) l).
Proof. reflexivity. Qed.

(** Running a neutral function keeps the chat cells and spawns no chat
    request. *)
Lemma run_neutral (p : Async) :
  chat_neutral p ->
  forall s : State,
    chatPart (fst (run p s)) = chatPart s
    /\ Forall task_ok (spawned (snd (run p s)))
    /\ List.filter (fun t => is_chat_call (call t)) (spawned (snd (run p s))) = [].
Proof.
  induction 1 as [| |f k Hf Hk IH|X c k Hc Hk IH]; intros s; cbn [run fst snd spawned].
  - auto.
  - auto.
  - destruct (IH (f s)) as (Hpart & Hok & Hnone).
    rewrite Hpart, Hf. auto.
  - split; [reflexivity |]. split.
    + constructor; [| constructor]. unfold task_ok. cbn [call resume awaited].
      rewrite Hc. exact Hk.
    + cbn [List.filter call awaited]. now rewrite Hc.
Qed.

Lemma fetchMotivation_neutral (name : string) : chat_neutral (fetchMotivation name).
Proof.
  unfold fetchMotivation, set, await. cbn [andThen try_catch finally].
  constructor; [reflexivity |].
  constructor; [reflexivity |].
  intros [sid|]; cbn [andThen try_catch finally].
  - constructor; [reflexivity |].
    intros [quote|]; cbn [andThen try_catch finally];
      repeat (constructor; try reflexivity).
  - repeat (constructor; try reflexivity).
Qed.

Lemma alternates_nil : Spec.alternates [].
Proof. intros i m Hi. rewrite lookup_nil in Hi. discriminate. Qed.

Lemma alternates_snoc (h : list ChatMessage) (m : ChatMessage) :
  Spec.alternates h ->
  role m = (if Nat.even (length h) then user else bot) ->
  Spec.alternates (h ++ [m]).
Proof.
  intros Halt Hrole i m' Hi.
  apply lookup_app_Some in Hi as [Hi|[Hlen Hi]].
  - now apply Halt.
  - apply list_lookup_singleton_Some in Hi as [Hi <-].
    replace i with (length h) by lia. exact Hrole.
Qed.

(** The effect of one step on the chat cells and on the chat requests in
    flight: none, or the start of a turn, or its end. *)
Lemma step_chat_effect (sys sys' : System) :
  Forall task_ok (pending sys) ->
  in_flight sys = (if isSending (state sys) then 1 else 0)%nat ->
  step sys sys' ->
  Forall task_ok (pending sys')
  /\ ((chatPart (state sys') = chatPart (state sys)
       /\ in_flight sys' = in_flight sys)
      \/ (isSending (state sys) = false
          /\ JsString.trim (chatInput (state sys)) <> ""
          /\ isSending (state sys') = true
          /\ in_flight sys' = 1%nat
          /\ chatHistory (state sys')
             = chatHistory (state sys)
               ++ [{| role := user; text := chatInput (state sys) |}])
      \/ (isSending (state sys) = true
          /\ isSending (state sys') = false
          /\ in_flight sys' = 0%nat
          /\ exists reply : string,
               chatHistory (state sys')
               = chatHistory (state sys) ++ [{| role := bot; text := reply |}])).
Proof.
  intros Htasks Hflight Hstep.
  destruct Hstep as [sys|sys v|sys|sys name|sys before t after o Hpending].
  - split; [exact Htasks | left; split; reflexivity].
  - split; [exact Htasks | left; split; reflexivity].
  - destruct (isSending (state sys)) eqn:Hsending.
    { rewrite start_rejected by now right.
      split; [exact Htasks | left; split; reflexivity]. }
    destruct (decide (JsString.trim (chatInput (state sys)) = "")) as [Hblank|Hblank].
    { rewrite start_rejected by now left.
      split; [exact Htasks | left; split; reflexivity]. }
    destruct (handleSendMessage_accepted (state sys) Hblank Hsending) as (k & Hrun & Hk).
    rewrite start_unfold, Hrun. cbn [fst snd spawned state pending]. split.
    + apply Forall_app. split; [exact Htasks |].
      constructor; [| constructor]. unfold task_ok.
      cbn [call resume awaited is_chat_call].
      intros o s. exists (botReply o). apply Hk.
    + right; left. split; [reflexivity |]. split; [exact Hblank |].
      split; [reflexivity |]. split; [| reflexivity].
      rewrite in_flight_pending, List.filter_app, length_app.
      unfold in_flight in Hflight. rewrite Hflight. reflexivity.
  - destruct (run_neutral _ (fetchMotivation_neutral name) (state sys))
      as (Hpart & Hok & Hnone).
    rewrite start_unfold. cbn [state pending]. split.
    + apply Forall_app. split; assumption.
    + left. split; [exact Hpart |].
      rewrite in_flight_pending, List.filter_app, Hnone, app_nil_r. reflexivity.
  - rewrite Hpending in Htasks.
    apply Forall_app in Htasks as [Hbefore Htasks].
    apply Forall_cons in Htasks as [Ht Hafter].
    unfold in_flight in Hflight.
    rewrite Hpending, List.filter_app, length_app in Hflight. cbn [List.filter] in Hflight.
    rewrite start_unfold. cbn [state pending].
    unfold task_ok in Ht. destruct (is_chat_call (call t)) eqn:Hchat.
    + destruct (Ht o (state sys)) as (reply & Hrun). rewrite Hrun.
      cbn [fst snd spawned length] in *. split.
      * rewrite app_nil_r. apply Forall_app. split; assumption.
      * right; right.
        destruct (isSending (state sys)); [| lia].
        split; [reflexivity |]. split; [reflexivity |]. split.
        -- rewrite in_flight_pending, app_nil_r, List.filter_app, length_app. lia.
        -- exists reply. reflexivity.
    + destruct (run_neutral _ (Ht o) (state sys)) as (Hpart & Hok & Hnone). split.
      * apply Forall_app. split; [apply Forall_app; split; assumption | exact Hok].
      * left. split; [exact Hpart |].
        rewrite in_flight_pending, !List.filter_app, Hnone, app_nil_r, length_app.
        unfold in_flight. rewrite Hpending, List.filter_app, length_app.
        cbn [List.filter]. rewrite Hchat. reflexivity.
Qed.

Lemma invariant_initial : invariant initialSystem.
Proof.
  constructor; cbn; [constructor | reflexivity | apply alternates_nil | reflexivity].
Qed.

Lemma invariant_step (sys sys' : System) :
  invariant sys -> step sys sys' -> invariant sys'.
Proof.
  intros [Htasks Hflight Halt Hparity] Hstep.
  destruct (step_chat_effect sys sys' Htasks Hflight Hstep)
    as (Htasks' & [(Hpart & Hsame)|[(Hs & _ & Hs' & Hone & Hh)|(Hs & Hs' & Hzero & reply & Hh)]]).
  - injection Hpart as Hh Hs. constructor; [assumption | | |].
    + now rewrite Hsame, Hs.
    + now rewrite Hh.
    + now rewrite Hh, Hs.
  - rewrite Hs in Hparity. cbn [negb] in Hparity.
    constructor; [assumption | | |].
    + now rewrite Hone, Hs'.
    + rewrite Hh. apply alternates_snoc; [assumption | now rewrite Hparity].
    + rewrite Hh, Hs', length_app, Nat.add_1_r, Nat.even_succ, <- Nat.negb_even, Hparity.
      reflexivity.
  - rewrite Hs in Hparity. cbn [negb] in Hparity.
    constructor; [assumption | | |].
    + now rewrite Hzero, Hs'.
    + rewrite Hh. apply alternates_snoc; [assumption | now rewrite Hparity].
    + rewrite Hh, Hs', length_app, Nat.add_1_r, Nat.even_succ, <- Nat.negb_even, Hparity.
      reflexivity.
Qed.

Lemma invariant_steps (sys sys' : System) :
  invariant sys -> rtc step sys sys' -> invariant sys'.
Proof. intros Hinv Hsteps. induction Hsteps; eauto using invariant_step. Qed.

Lemma reachable_invariant (sys : System) : reachable sys -> invariant sys.
Proof. apply invariant_steps, invariant_initial. Qed.

Lemma reachable_typed : reachable Sample.typed.
Proof. apply rtc_once. exact (step_input initialSystem "hello"). Qed.

Lemma reachable_sent : reachable Sample.sent.
Proof.
  eapply rtc_r; [apply reachable_typed | exact (step_send Sample.typed)].
Qed.

(** Scenario 8 of the specification: a second send while the first is
    pending changes nothing; the request is rejected, the error message is
    appended and the flag is reset; the next send is accepted. *)
Example sequential_sends :
  exists replied : System,
    start (handleSendMessage (state Sample.sent)) Sample.sent = Sample.sent
    /\ step Sample.sent replied
    /\ state replied
       = {| isChatOpen := false; chatInput := "";
            chatHistory :=
              [{| role := user; text := "hello" |};
               {| role := bot;
                  text := "Error connecting to AI service. Please check your connection." |}];
            isSending := false;
            motivation := "Loading your daily focus...";
            isMotivationLoading := false |}
    /\ pending replied = []
    /\ chatHistory
         (state (start (handleSendMessage (setChatInput "again" (state replied)))
                       {| state := setChatInput "again" (state replied);
                          pending := pending replied |}))
       = [{| role := user; text := "hello" |};
          {| role := bot;
             text := "Error connecting to AI service. Please check your connection." |};
          {| role := user; text := "again" |}].
Proof.
  eexists. split; [reflexivity |]. split.
  - refine (step_settle Sample.sent [] _ [] Rejected _). reflexivity.
  - split; [reflexivity |]. split; reflexivity.
Qed.

Lemma steps_prefix (sys sys' : System) :
  invariant sys -> rtc step sys sys' ->
  chatHistory (state sys) `prefix_of` chatHistory (state sys').
Proof.
  intros Hinv Hsteps. induction Hsteps as [sys|sys mid sys' Hstep Hsteps IH].
  - reflexivity.
  - etransitivity; [| apply IH; eauto using invariant_step].
    destruct Hinv as [Htasks Hflight _ _].
    destruct (step_chat_effect sys mid Htasks Hflight Hstep)
      as (_ & [(Hpart & _)|[(_ & _ & _ & _ & ->)|(_ & _ & _ & reply & ->)]]).
    + injection Hpart as -> _. reflexivity.
    + now apply prefix_app_r.
    + now apply prefix_app_r.
Qed.



(** C9. From a reachable state, a step leaves the chat history as it is
    or appends one message at its end; hence along any run the earlier
    history stays a prefix of the later one: no message in it is changed,
    removed or moved. *)
Theorem chatHistory_append_only (sys sys' : System) :
  reachable sys ->
  (step sys sys' ->
   chatHistory (state sys') = chatHistory (state sys)
   \/ exists m : ChatMessage,
        chatHistory (state sys') = chatHistory (state sys) ++ [m])
  /\ (rtc step sys sys' ->
      chatHistory (state sys) `prefix_of` chatHistory (state sys')).
Proof.
  intros Hreach. pose proof (reachable_invariant sys Hreach) as Hinv. split.
  - intros Hstep. destruct Hinv as [Htasks Hflight _ _].
    destruct (step_chat_effect sys sys' Htasks Hflight Hstep)
      as (_ & [(Hpart & _)|[(_ & _ & _ & _ & Hh)|(_ & _ & _ & reply & Hh)]]).
    + injection Hpart as Hh _. now left.
    + right. eauto.
    + right. eauto.
  - now apply steps_prefix.
Qed.

Lemma chatHistory_append_only_witness :
  chatHistory (state Sample.typed) `prefix_of` chatHistory (state Sample.sent).
Proof.
  apply (proj2 (chatHistory_append_only Sample.typed Sample.sent reachable_typed)).
  apply rtc_once. exact (step_send Sample.typed).
Defined.

(** C10. In every reachable state the roles of the history alternate,
    beginning with the user; when [isSending] is false its length is even.
    An accepted [handleSendMessage] appends one user message before it
    suspends, and one message of the assistant when its request settles,
    whichever way it settles. *)
Theorem chatHistory_alternates (sys : System) :
  reachable sys ->
  Spec.alternates (chatHistory (state sys))
  /\ (isSending (state sys) = false ->
      Nat.even (length (chatHistory (state sys))) = true)
  /\ (isSending (state sys) = false ->
      JsString.trim (chatInput (state sys)) <> "" ->
      exists (k : Settled (option string) -> Async) (sent : State),
        run (handleSendMessage (state sys)) (state sys)
        = (sent, Suspended {| call := generateContent (chatInput (state sys));
                              resume := k |})
        /\ chatHistory sent
           = chatHistory (state sys)
             ++ [{| role := user; text := chatInput (state sys) |}]
        /\ forall o : Settled (option string),
             snd (run (k o) sent) = Completed
             /\ isSending (fst (run (k o) sent)) = false
             /\ chatHistory (fst (run (k o) sent))
                = chatHistory (state sys)
                  ++ [{| role := user; text := chatInput (state sys) |};
                      {| role := bot; text := botReply o |}]).
Proof.
  intros Hreach. destruct (reachable_invariant sys Hreach) as [_ _ Halt Hparity].
  split; [exact Halt |].
  split; [intros Hs; now rewrite Hparity, Hs |].
  intros Hsending Hblank.
  destruct (handleSendMessage_accepted (state sys) Hblank Hsending) as (k & Hrun & Hk).
  eexists k, _. split; [exact Hrun |]. split; [reflexivity |].
  intros o. rewrite Hk. cbn [fst snd isSending setIsSending chatHistory setChatHistory
                              setChatInput].
  split; [reflexivity |]. split; [reflexivity |].
  now rewrite <- app_assoc.
Qed.

Lemma chatHistory_alternates_witness :
  Spec.alternates (chatHistory (state Sample.sent)).
Proof.
  exact (proj1 (chatHistory_alternates Sample.sent reachable_sent)).
Defined.

End Component.

(** ** More on the track matcher *)

Section MatcherMore.

Local Open Scope list_scope.

Lemma activeTracks_elem (CURRICULUM : list Track.t) (progress : UserProgress)
    (t : Track.t) :
  t ∈ activeTracks CURRICULUM progress
  <-> exists prefs, preferences progress = Some prefs
                    /\ t ∈ CURRICULUM /\ Spec.matched progress prefs t.
Proof.
  unfold activeTracks. destruct (preferences progress) as [prefs|].
  - rewrite filter_keep_matched, list_elem_of_filter. split.
    + intros [Hm Hin]. exists prefs. auto.
    + intros (prefs' & Heq & Hin & Hm). injection Heq as <-. auto.
  - split; [intros Hin; inversion Hin | intros (? & ? & _); discriminate].
Qed.

(** X1. The matched tracks are a subsequence of the catalogue, so when
    the ids of the catalogue are unique the keys of the rendered cards
    ([key={path.id}]) are unique too. *)
Theorem activeTracks_sublist_unique_ids (CURRICULUM : list Track.t)
    (progress : UserProgress) :
  NoDup (map Track.id CURRICULUM) ->
  activeTracks CURRICULUM progress `sublist_of` CURRICULUM
  /\ NoDup (map Track.id (activeTracks CURRICULUM progress)).
Proof.
  intros Hids.
  assert (Hsub : activeTracks CURRICULUM progress `sublist_of` CURRICULUM).
  { unfold activeTracks. destruct (preferences progress) as [prefs|].
    - rewrite filter_keep_matched. apply sublist_filter.
    - apply sublist_nil_l. }
  split; [exact Hsub |].
  apply (sublist_NoDup _ (map Track.id CURRICULUM)); [exact Hids |].
  change (Track.id <$> activeTracks CURRICULUM progress `sublist_of` Track.id <$> CURRICULUM).
  now apply fmap_sublist.
Qed.

Lemma activeTracks_sublist_unique_ids_witness :
  NoDup (map Track.id (activeTracks [Sample.webTrack 1; Sample.pythonTrack]
                                    (Sample.progress Sample.webConfig []))).
Proof.
  apply (activeTracks_sublist_unique_ids [Sample.webTrack 1; Sample.pythonTrack]).
  vm_compute. apply NoDup_cons.
  split; [rewrite list_elem_of_singleton; discriminate | apply NoDup_singleton].
Defined.

(** X2. The dependency list of the [useMemo] is sound: two progress
    values with the same [activeDomains] and [preferences] give the same
    tracks, whatever their [completedTopicIds] are. *)
Theorem activeTracks_depends_on_memo_deps (CURRICULUM : list Track.t)
    (progress progress' : UserProgress) :
  activeDomains progress = activeDomains progress' ->
  preferences progress = preferences progress' ->
  activeTracks CURRICULUM progress = activeTracks CURRICULUM progress'.
Proof.
  intros Hdomains Hprefs. unfold activeTracks. rewrite <- Hprefs.
  destruct (preferences progress) as [prefs|]; [| reflexivity].
  apply List.filter_ext. intros t. unfold activeTracks_keep. now rewrite Hdomains.
Qed.

Lemma activeTracks_depends_on_memo_deps_witness :
  activeTracks [Sample.webTrack 2] (Sample.firstCompleted 0)
  = activeTracks [Sample.webTrack 2] (Sample.firstCompleted 2).
Proof.
  apply activeTracks_depends_on_memo_deps; reflexivity.
Defined.

(** X3. Activating more domains, with the same preferences, only adds
    tracks: the earlier result is a subsequence of the later one. *)
Theorem activeTracks_monotone_in_activeDomains (CURRICULUM : list Track.t)
    (progress progress' : UserProgress) :
  (forall d, d ∈ activeDomains progress -> d ∈ activeDomains progress') ->
  preferences progress = preferences progress' ->
  activeTracks CURRICULUM progress
  `sublist_of` activeTracks CURRICULUM progress'.
Proof.
  intros Hdomains Hprefs. unfold activeTracks. rewrite <- Hprefs.
  destruct (preferences progress) as [prefs|]; [| apply sublist_nil_l].
  induction CURRICULUM as [|t l IH]; [constructor |].
  cbn [List.filter].
  destruct (activeTracks_keep progress prefs t) eqn:Hk.
  - assert (Hk' : activeTracks_keep progress' prefs t = true).
    { apply activeTracks_keep_matched. apply activeTracks_keep_matched in Hk.
      destruct Hk as (Hd & Hc). split; [now apply Hdomains | exact Hc]. }
    rewrite Hk'. now apply sublist_skip.
  - destruct (activeTracks_keep progress' prefs t);
      [now apply sublist_cons | exact IH].
Qed.

Lemma activeTracks_monotone_in_activeDomains_witness :
  activeTracks [Sample.webTrack 1; Sample.mlTrack] (Sample.active ["Web"])
  = [Sample.webTrack 1]
  /\ activeTracks [Sample.webTrack 1; Sample.mlTrack] (Sample.active ["Web"; "ML"])
     = [Sample.webTrack 1; Sample.mlTrack]
  /\ activeTracks [Sample.webTrack 1; Sample.mlTrack] (Sample.active ["Web"])
     `sublist_of`
     activeTracks [Sample.webTrack 1; Sample.mlTrack] (Sample.active ["Web"; "ML"]).
Proof.
  split; [vm_compute; reflexivity |]. split; [vm_compute; reflexivity |].
  apply activeTracks_monotone_in_activeDomains.
  - intros d Hd. cbn [activeDomains Sample.active] in *.
    apply list_elem_of_singleton in Hd as ->. left.
  - reflexivity.
Defined.

(** X4. Two matched tracks of the same domain have the same level up
    to case and, outside the ML domain, the same [languageOrTech] up to
    case: a learner sees one level per domain and one language per non-ML
    domain. *)
Theorem activeTracks_one_choice_per_domain (CURRICULUM : list Track.t)
    (progress : UserProgress) (t1 t2 : Track.t) :
  t1 ∈ activeTracks CURRICULUM progress ->
  t2 ∈ activeTracks CURRICULUM progress ->
  Track.domain t1 = Track.domain t2 ->
  Spec.equal_ignoring_case (Track.level t1) (Track.level t2)
  /\ (Track.domain t1 <> "ML" ->
      Spec.equal_ignoring_case (Track.languageOrTech t1) (Track.languageOrTech t2)).
Proof.
  intros H1 H2 Hdom.
  apply activeTracks_elem in H1 as (prefs & Hp & _ & _ & c1 & Hc1 & Hl1 & Ht1).
  apply activeTracks_elem in H2 as (prefs' & Hp' & _ & _ & c2 & Hc2 & Hl2 & Ht2).
  rewrite Hp in Hp'. injection Hp' as <-.
  rewrite Hdom, Hc2 in Hc1. injection Hc1 as <-.
  unfold Spec.equal_ignoring_case in *. split; [congruence |].
  intros Hml. rewrite <- Hdom in Ht2.
  destruct (decide (Track.domain t1 = "ML")); [contradiction | congruence].
Qed.

Lemma activeTracks_one_choice_per_domain_witness :
  Sample.webTrack 1 <> Sample.capitalsTrack
  /\ Spec.equal_ignoring_case (Track.level (Sample.webTrack 1))
                              (Track.level Sample.capitalsTrack)
  /\ (Track.domain (Sample.webTrack 1) <> "ML" ->
      Spec.equal_ignoring_case (Track.languageOrTech (Sample.webTrack 1))
                               (Track.languageOrTech Sample.capitalsTrack)).
Proof.
  split; [discriminate |].
  apply (activeTracks_one_choice_per_domain
           [Sample.webTrack 1; Sample.pythonTrack; Sample.capitalsTrack]
           (Sample.progress Sample.webConfig [])
           (Sample.webTrack 1) Sample.capitalsTrack).
  - vm_compute. left.
  - vm_compute. right. left.
  - reflexivity.
Defined.

Lemma matched_same_choice (progress progress' : UserProgress)
    (prefs prefs' : Preferences) (t : Track.t) :
  activeDomains progress = activeDomains progress' ->
  (forall d : Domain, option_Forall2 same_choice (configs prefs !! d) (configs prefs' !! d)) ->
  Spec.matched progress prefs t -> Spec.matched progress' prefs' t.
Proof.
  intros Hdomains Hsame (Hd & c & Hc & Hl & Ht).
  split; [now rewrite <- Hdomains |].
  pose proof (Hsame (Track.domain t)) as Hs. rewrite Hc in Hs.
  destruct (configs prefs' !! Track.domain t) as [c'|] eqn:Hc';
    [| inversion Hs].
  assert (Hcc : same_choice c c') by (inversion Hs; assumption).
  destruct Hcc as (Hlevel & Hlang & Hlibs).
  exists c'. split; [reflexivity |].
  unfold Spec.equal_ignoring_case in *. split; [congruence |].
  destruct (decide (Track.domain t = "ML")); congruence.
Qed.

(** X5. The case of the stored level and language does not matter:
    preferences whose configs agree domain by domain on the level (with its
    default) and the language up to case, and on the libraries, match the
    same tracks. *)
Theorem activeTracks_ignores_case_of_preferences (CURRICULUM : list Track.t)
    (progress progress' : UserProgress) (prefs prefs' : Preferences) :
  activeDomains progress = activeDomains progress' ->
  preferences progress = Some prefs ->
  preferences progress' = Some prefs' ->
  (forall d : Domain, option_Forall2 same_choice (configs prefs !! d) (configs prefs' !! d)) ->
  activeTracks CURRICULUM progress = activeTracks CURRICULUM progress'.
Proof.
  intros Hdomains Hp Hp' Hsame. unfold activeTracks. rewrite Hp, Hp'.
  apply List.filter_ext. intros t.
  assert (Hsame' : forall d : Domain, option_Forall2 same_choice (configs prefs' !! d)
                                            (configs prefs !! d)).
  { intros d. destruct (Hsame d) as [c c' (H1 & H2 & H3)|]; constructor.
    unfold same_choice, Spec.equal_ignoring_case in *. auto. }
  destruct (activeTracks_keep progress prefs t) eqn:Hk;
    destruct (activeTracks_keep progress' prefs' t) eqn:Hk'; try reflexivity.
  - apply activeTracks_keep_matched in Hk.
    apply (matched_same_choice _ progress' _ prefs') in Hk; [| assumption | assumption].
    apply activeTracks_keep_matched in Hk. congruence.
  - apply activeTracks_keep_matched in Hk'.
    apply (matched_same_choice _ progress _ prefs) in Hk'; [| auto | assumption].
    apply activeTracks_keep_matched in Hk'. congruence.
Qed.

Lemma activeTracks_ignores_case_of_preferences_witness :
  activeTracks [Sample.webTrack 1] (Sample.progress Sample.webConfig [])
  = activeTracks [Sample.webTrack 1]
      (Sample.progress {| Config.level := Some "BEGINNER";
                          Config.language := Some "JavaScript";
                          Config.libraries := Some [] |} []).
Proof.
  eapply activeTracks_ignores_case_of_preferences;
    [reflexivity | reflexivity | reflexivity |].
  intros d. cbn [configs Sample.webPrefs].
  destruct (decide (d = "Web")) as [->|Hne].
  - rewrite !lookup_singleton_eq. constructor. repeat split.
  - rewrite !lookup_singleton_ne by congruence. constructor.
Defined.

End MatcherMore.

(** ** More on the progress aggregator *)

Section AggregatorMore.

Local Open Scope Z_scope.

Lemma fold_left_topic_count (tracks : list Track.t) (acc : nat) :
  fold_left (fun acc curr => (acc + length (Track.topics curr))%nat) tracks acc
  = (acc + length (concat (map Track.topics tracks)))%nat.
Proof.
  revert acc. induction tracks as [|t l IH]; intros acc; cbn [fold_left map concat].
  - cbn. lia.
  - rewrite IH, length_app. lia.
Qed.

(** X6. The [reduce] of line 131 is the number of topics of all the
    given tracks together; it is additive over concatenation, and it is
    zero exactly when every track has no topic. *)
Theorem totalPossibleTopics_sum (tracks more : list Track.t) :
  totalPossibleTopics tracks = length (concat (map Track.topics tracks))
  /\ totalPossibleTopics (tracks ++ more)
     = (totalPossibleTopics tracks + totalPossibleTopics more)%nat
  /\ (totalPossibleTopics tracks = 0%nat
      <-> forall t, t ∈ tracks -> Track.topics t = []).
Proof.
  assert (Hsum : forall l, totalPossibleTopics l = length (concat (map Track.topics l)))
    by (intros l; unfold totalPossibleTopics; now rewrite fold_left_topic_count).
  split; [apply Hsum |]. split.
  - rewrite !Hsum, map_app, concat_app, length_app. reflexivity.
  - rewrite Hsum. induction tracks as [|t l IH]; cbn [map concat].
    + split; [intros _ t Ht; inversion Ht | reflexivity].
    + rewrite length_app. split.
      * intros Hz t' Ht'. apply elem_of_cons in Ht' as [->|Ht'].
        -- destruct (Track.topics t); [reflexivity | cbn in Hz; lia].
        -- apply IH; [lia | assumption].
      * intros Hall. rewrite (Hall t) by left. cbn [length].
        apply IH. intros t' Ht'. apply Hall. now right.
Qed.

(** X7. The global rate is a non-negative integer, never NaN or
    infinite: 0 when the matched tracks have no topic, otherwise an integer
    nearest to [100 * C / T] for the [C] entries of [completedTopicIds] and
    the [T] topics of the matched tracks; it is at least 100 as soon as
    [C >= T]. *)
Theorem globalCompletionRate_value (CURRICULUM : list Track.t)
    (progress : UserProgress) :
  let C := Z.of_nat (length (completedTopicIds progress)) in
  let T := Z.of_nat (totalPossibleTopics (activeTracks CURRICULUM progress)) in
  C < 2 ^ 32 -> T < 2 ^ 32 ->
  exists r : Z,
    globalCompletionRate CURRICULUM progress = Number.of_Z r
    /\ 0 <= r
    /\ (T = 0 -> r = 0)
    /\ (T <> 0 -> T * (2 * r - 1) <= 200 * C <= T * (2 * r + 1))
    /\ (T <> 0 -> T <= C -> 100 <= r).
Proof.
  intros C T HC HT. unfold globalCompletionRate. cbv zeta.
  destruct (0 <? totalPossibleTopics (activeTracks CURRICULUM progress))%nat eqn:Hpos.
  - apply Nat.ltb_lt in Hpos.
    destruct (percent_bracket C T) as (r & Hr & Hb); [lia | lia |].
    exists r. unfold Number.of_nat, totalCompletedTopics. fold C T.
    split; [exact Hr |]. split; [nia |]. split; [lia |].
    split; [intros _; exact Hb | intros _ Hle; nia].
  - apply Nat.ltb_ge in Hpos. exists 0.
    split; [reflexivity |]. split; [lia |]. split; [reflexivity |]. split; lia.
Qed.

Lemma globalCompletionRate_value_witness :
  exists r : Z,
    globalCompletionRate [Sample.webTrack 1; Sample.pythonTrack]
                         (Sample.progress Sample.webConfig ["t0"; "t9"]%string)
    = Number.of_Z r
    /\ 0 <= r.
Proof.
  destruct (globalCompletionRate_value [Sample.webTrack 1; Sample.pythonTrack]
              (Sample.progress Sample.webConfig ["t0"; "t9"]%string))
    as (r & Hr & Hpos & _).
  - vm_compute. reflexivity.
  - vm_compute. reflexivity.
  - exists r. split; assumption.
Defined.

Lemma completedInTrack_ext (progress progress' : UserProgress) (path : Track.t) :
  (forall t, t ∈ Track.topics path ->
             (Topic.id t ∈ completedTopicIds progress
              <-> Topic.id t ∈ completedTopicIds progress')) ->
  completedInTrack progress path = completedInTrack progress' path.
Proof.
  intros Hsame. unfold completedInTrack. f_equal.
  apply List.filter_ext_in. intros t Ht. apply list_elem_of_In in Ht.
  destruct (includes (completedTopicIds progress) (Topic.id t)) eqn:H1;
    destruct (includes (completedTopicIds progress') (Topic.id t)) eqn:H2;
    try reflexivity.
  - apply includes_elem_of, (Hsame t Ht), includes_elem_of in H1. congruence.
  - apply includes_elem_of, (Hsame t Ht), includes_elem_of in H2. congruence.
Qed.

(** X8. The rate of a track depends on [completedTopicIds] only through
    which topic ids of the track it contains: its order, its duplicates
    and the ids of other tracks do not matter. *)
Theorem trackRate_depends_on_membership (progress progress' : UserProgress)
    (path : Track.t) :
  (forall t, t ∈ Track.topics path ->
             (Topic.id t ∈ completedTopicIds progress
              <-> Topic.id t ∈ completedTopicIds progress')) ->
  trackRate progress path = trackRate progress' path.
Proof.
  intros Hsame. unfold trackRate.
  now rewrite (completedInTrack_ext progress progress' path Hsame).
Qed.

Lemma trackRate_depends_on_membership_witness :
  trackRate (Sample.progress Sample.webConfig ["t0"; "t1"]%string) (Sample.webTrack 3)
  = trackRate (Sample.progress Sample.webConfig ["t1"; "t0"; "t1"]%string)
              (Sample.webTrack 3).
Proof.
  apply trackRate_depends_on_membership.
  intros t _. cbn [completedTopicIds Sample.progress].
  rewrite !elem_of_cons, !elem_of_nil. tauto.
Defined.

Lemma completedInTrack_mono (progress progress' : UserProgress) (path : Track.t) :
  (forall t, t ∈ Track.topics path ->
             Topic.id t ∈ completedTopicIds progress ->
             Topic.id t ∈ completedTopicIds progress') ->
  (completedInTrack progress path <= completedInTrack progress' path)%nat.
Proof.
  unfold completedInTrack. induction (Track.topics path) as [|t l IH]; intros Hmore.
  - reflexivity.
  - assert (IH' := IH (fun t' Ht' => Hmore t' (list_elem_of_further _ _ _ Ht'))).
    cbn [List.filter].
    destruct (includes (completedTopicIds progress) (Topic.id t)) eqn:H1.
    + apply includes_elem_of, (Hmore t (list_elem_of_here _ _)), includes_elem_of in H1.
      rewrite H1. cbn [length]. lia.
    + destruct (includes (completedTopicIds progress') (Topic.id t)); cbn [length]; lia.
Qed.

(** X9. Completing more topics of a track never lowers its rate. *)
Theorem trackRate_monotone (progress progress' : UserProgress) (path : Track.t) :
  Z.of_nat (length (Track.topics path)) < 2 ^ 32 ->
  (forall t, t ∈ Track.topics path ->
             Topic.id t ∈ completedTopicIds progress ->
             Topic.id t ∈ completedTopicIds progress') ->
  exists r r' : Z,
    trackRate progress path = Number.of_Z r
    /\ trackRate progress' path = Number.of_Z r'
    /\ r <= r'.
Proof.
  intros HT Hmore.
  pose proof (completedInTrack_mono progress progress' path Hmore) as Hle.
  pose proof (completedInTrack_le progress' path) as Hle'.
  unfold trackRate.
  destruct (0 <? length (Track.topics path))%nat eqn:Hpos;
    [| exists 0, 0; repeat split; lia].
  apply Nat.ltb_lt in Hpos. unfold Number.of_nat.
  destruct (Nat.eq_dec (completedInTrack progress path)
                       (completedInTrack progress' path)) as [Heq|Hne].
  - rewrite Heq.
    destruct (percent_bracket (Z.of_nat (completedInTrack progress' path))
                (Z.of_nat (length (Track.topics path)))) as (r & Hr & _); [lia | lia |].
    exists r, r. rewrite Hr. repeat split; lia.
  - destruct (percent_bracket (Z.of_nat (completedInTrack progress path))
                (Z.of_nat (length (Track.topics path)))) as (r & Hr & Hb); [lia | lia |].
    destruct (percent_bracket (Z.of_nat (completedInTrack progress' path))
                (Z.of_nat (length (Track.topics path)))) as (r' & Hr' & Hb'); [lia | lia |].
    exists r, r'. split; [exact Hr |]. split; [exact Hr' |]. nia.
Qed.

Lemma trackRate_monotone_witness :
  exists r r' : Z,
    trackRate (Sample.firstCompleted 1) (Sample.webTrack 3) = Number.of_Z r
    /\ trackRate (Sample.firstCompleted 2) (Sample.webTrack 3) = Number.of_Z r'
    /\ r <= r'.
Proof.
  apply trackRate_monotone.
  - vm_compute. reflexivity.
  - intros t _. cbn. rewrite !elem_of_cons, !elem_of_nil. tauto.
Defined.

End AggregatorMore.

Section AggregatorExact.

Local Open Scope Z_scope.

(** Distinct integers below [2^53] are distinct numbers. *)
Lemma of_Z_inj (a b : Z) :
  0 <= a < 2 ^ 53 -> 0 <= b < 2 ^ 53 -> Number.of_Z a = Number.of_Z b -> a = b.
Proof.
  intros Ha Hb Heq.
  destruct (Z.eq_dec a 0) as [->|Ha0]; destruct (Z.eq_dec b 0) as [->|Hb0];
    [reflexivity | exfalso | exfalso |].
  - destruct (of_Z_exact b) as (m & x & Hm & _); [lia |].
    rewrite Hm in Heq. discriminate Heq.
  - destruct (of_Z_exact a) as (m & x & Hm & _); [lia |].
    rewrite Hm in Heq. discriminate Heq.
  - destruct (of_Z_exact a) as (m & x & Hm & Hx & Hval & _); [lia |].
    destruct (of_Z_exact b) as (m' & x' & Hm' & Hx' & Hval' & _); [lia |].
    rewrite Hm, Hm' in Heq. injection Heq as Hmm Hxx.
    assert (x = x') by lia. subst x' m'.
    assert (0 < 2 ^ x) by (apply Z.pow_pos_nonneg; lia). nia.
Qed.

Lemma completedInTrack_full (progress : UserProgress) (path : Track.t) :
  completedInTrack progress path = length (Track.topics path)
  <-> forall t, t ∈ Track.topics path -> Topic.id t ∈ completedTopicIds progress.
Proof.
  split; [| apply completedInTrack_all].
  unfold completedInTrack. induction (Track.topics path) as [|t l IH].
  - intros _ t Ht. inversion Ht.
  - cbn [List.filter].
    pose proof (List.filter_length_le
                  (fun t => includes (completedTopicIds progress) (Topic.id t)) l) as Hle.
    destruct (includes (completedTopicIds progress) (Topic.id t)) eqn:Hin;
      cbn [length]; intros Hlen; [| lia].
    intros t' Ht'. apply elem_of_cons in Ht' as [->|Ht'].
    + now apply includes_elem_of.
    + apply IH; [lia | assumption].
Qed.

Lemma completedInTrack_none (progress : UserProgress) (path : Track.t) :
  completedInTrack progress path = 0%nat
  <-> forall t, t ∈ Track.topics path -> Topic.id t ∉ completedTopicIds progress.
Proof.
  unfold completedInTrack. induction (Track.topics path) as [|t l IH].
  - split; [intros _ t Ht; inversion Ht | reflexivity].
  - cbn [List.filter].
    destruct (includes (completedTopicIds progress) (Topic.id t)) eqn:Hin.
    + cbn [length]. split; [lia |]. intros Hnone. exfalso.
      apply (Hnone t); [left | now apply includes_elem_of].
    + rewrite IH. split.
      * intros Hnone t' Ht'. apply elem_of_cons in Ht' as [->|Ht'].
        -- intros Habs. apply includes_elem_of in Habs. congruence.
        -- now apply Hnone.
      * intros Hnone t' Ht'. apply Hnone. now right.
Qed.

(** X10. For a track with 1 to 199 topics the two ends are exact: 100 is
    shown exactly when every topic is completed, and 0 exactly when none
    is. *)
Theorem trackRate_exact_ends (progress : UserProgress) (path : Track.t) :
  (0 < length (Track.topics path) < 200)%nat ->
  (trackRate progress path = Number.of_Z 100
   <-> forall t, t ∈ Track.topics path -> Topic.id t ∈ completedTopicIds progress)
  /\ (trackRate progress path = Number.of_Z 0
      <-> forall t, t ∈ Track.topics path -> Topic.id t ∉ completedTopicIds progress).
Proof.
  intros HT.
  pose proof (completedInTrack_le progress path) as Hle.
  rewrite <- completedInTrack_full, <- completedInTrack_none.
  unfold trackRate.
  replace (0 <? length (Track.topics path))%nat with true
    by (symmetry; apply Nat.ltb_lt; lia).
  unfold Number.of_nat.
  destruct (percent_bracket (Z.of_nat (completedInTrack progress path))
              (Z.of_nat (length (Track.topics path)))) as (r & -> & Hb); [lia | lia |].
  assert (Hr : 0 <= r <= 100) by nia.
  split; split.
  - intros Heq. apply of_Z_inj in Heq; [nia | lia | lia].
  - intros Heq. f_equal. nia.
  - intros Heq. apply of_Z_inj in Heq; [nia | lia | lia].
  - intros Heq. f_equal. nia.
Qed.

Lemma trackRate_exact_ends_witness :
  trackRate (Sample.firstCompleted 3) (Sample.webTrack 3) = Number.of_Z 100
  <-> forall t, t ∈ Track.topics (Sample.webTrack 3) ->
                Topic.id t ∈ completedTopicIds (Sample.firstCompleted 3).
Proof.
  apply (trackRate_exact_ends (Sample.firstCompleted 3) (Sample.webTrack 3)).
  cbn. lia.
Defined.

(** With 200 topics the ends are not exact: 199 completed show 100. *)
Example trackRate_100_with_one_open :
  trackRate (Sample.firstCompleted 199) (Sample.webTrack 200) = Number.of_Z 100.
Proof. vm_compute. reflexivity. Qed.

Lemma completed_count (completed : list string) (topics : list Topic.t) :
  NoDup (map Topic.id topics) -> NoDup completed ->
  (forall i, i ∈ completed -> i ∈ map Topic.id topics) ->
  length (List.filter (fun t => includes completed (Topic.id t)) topics)
  = length completed.
Proof.
  intros Hids Hcompleted Hsub.
  rewrite <- (length_map Topic.id).
  apply Permutation_length, NoDup_Permutation; [| exact Hcompleted |].
  - clear Hsub. induction topics as [|t l IH]; cbn [List.filter map]; [constructor |].
    cbn [map] in Hids. apply NoDup_cons in Hids as [Hnin Hids].
    destruct (includes completed (Topic.id t)); [| now apply IH].
    cbn [map]. apply NoDup_cons. split; [| now apply IH].
    intros Hin. apply Hnin.
    apply list_elem_of_In, in_map_iff in Hin as (t' & Heq & Hin).
    apply filter_In in Hin as [Hin _].
    rewrite <- Heq. apply list_elem_of_In, in_map. exact Hin.
  - intros i. rewrite !list_elem_of_In, in_map_iff. split.
    + intros (t & <- & Hin). apply filter_In in Hin as [_ Hin].
      apply list_elem_of_In. now apply includes_elem_of.
    + intros Hin. apply list_elem_of_In in Hin.
      pose proof (Hsub i Hin) as Hi.
      apply list_elem_of_In, in_map_iff in Hi as (t & <- & Ht).
      exists t. split; [reflexivity |]. apply filter_In.
      split; [exact Ht | now apply includes_elem_of].
Qed.

(** X11. When one track is matched, its topic ids are distinct, and
    [completedTopicIds] has no duplicate and holds topics of that track
    only, the global rate is the rate of the track. *)
Theorem globalCompletionRate_of_single_track (CURRICULUM : list Track.t)
    (progress : UserProgress) (path : Track.t) :
  activeTracks CURRICULUM progress = [path] ->
  NoDup (map Topic.id (Track.topics path)) ->
  NoDup (completedTopicIds progress) ->
  (forall i, i ∈ completedTopicIds progress -> i ∈ map Topic.id (Track.topics path)) ->
  globalCompletionRate CURRICULUM progress = trackRate progress path.
Proof.
  intros Hone Hids Hcompleted Hsub.
  unfold globalCompletionRate, trackRate, totalCompletedTopics, completedInTrack.
  rewrite Hone, completed_count by assumption.
  unfold totalPossibleTopics. cbn [fold_left]. reflexivity.
Qed.

Lemma globalCompletionRate_of_single_track_witness :
  globalCompletionRate [Sample.webTrack 2; Sample.pythonTrack] (Sample.firstCompleted 1)
  = trackRate (Sample.firstCompleted 1) (Sample.webTrack 2).
Proof.
  apply globalCompletionRate_of_single_track.
  - vm_compute. reflexivity.
  - vm_compute. apply NoDup_cons.
    split; [rewrite list_elem_of_singleton; discriminate | apply NoDup_singleton].
  - vm_compute. apply NoDup_singleton.
  - intros i Hi. vm_compute in Hi. apply list_elem_of_singleton in Hi as ->.
    vm_compute. left.
Defined.

End AggregatorExact.

(** ** The greeting and the Send button *)

Section ViewMore.

Local Open Scope list_scope.

(** X12. The first name of the greeting is the part of [user.name]
    before its first space: it has no space, the name is it followed by
    the rest, and the rest is empty or begins with a space. *)
Theorem firstName_prefix (name : string) :
  exists rest : string,
    name = (firstName name ++ rest)%string
    /\ (forall c, c ∈ codeUnits (firstName name) -> c <> " "%char)
    /\ (rest = "" \/ exists rest', rest = String " " rest').
Proof.
  induction name as [|c name (rest & Hname & Hnone & Hrest)]; cbn [firstName].
  - exists "". split; [reflexivity |]. split; [| now left].
    intros c Hc. inversion Hc.
  - destruct (Ascii.eqb c " ") eqn:Hc.
    + apply Ascii.eqb_eq in Hc as ->. exists (String " " name).
      split; [reflexivity |]. split; [| right; eauto].
      intros c Hc. inversion Hc.
    + apply Ascii.eqb_neq in Hc. exists rest.
      split; [change (String c name = String c (firstName name ++ rest)%string);
              f_equal; exact Hname |].
      split; [| exact Hrest].
      intros c' Hc'. cbn [codeUnits list_ascii_of_string] in Hc'.
      apply elem_of_cons in Hc' as [->|Hc']; [exact Hc | now apply Hnone].
Qed.

Lemma trimStart_blank (s : string) :
  JsString.trimStart s = ""
  <-> forallb JsString.is_space (codeUnits s) = true.
Proof.
  induction s as [|c s IH]; cbn [JsString.trimStart codeUnits list_ascii_of_string forallb].
  - tauto.
  - destruct (JsString.is_space c); cbn [andb]; [exact IH |].
    split; discriminate.
Qed.

Lemma trimEnd_head (c : ascii) (s : string) :
  JsString.is_space c = false -> JsString.trimEnd (String c s) <> "".
Proof.
  intros Hc. cbn [JsString.trimEnd]. rewrite Hc.
  destruct (JsString.trimEnd s); discriminate.
Qed.

Lemma trimStart_head (s : string) :
  JsString.trimStart s = ""
  \/ exists c s', JsString.trimStart s = String c s' /\ JsString.is_space c = false.
Proof.
  induction s as [|c s IH]; cbn [JsString.trimStart]; [now left |].
  destruct (JsString.is_space c) eqn:Hc; [exact IH | right; eauto].
Qed.

Lemma trim_blank (s : string) :
  JsString.trim s = "" <-> forallb JsString.is_space (codeUnits s) = true.
Proof.
  rewrite <- trimStart_blank. unfold JsString.trim.
  destruct (trimStart_head s) as [->|(c & s' & -> & Hc)].
  - tauto.
  - split; [intros Habs; now apply trimEnd_head in Habs | discriminate].
Qed.

(** X13. The Send button is disabled exactly when [handleSendMessage]
    would return at once, that is when a request is in flight or the
    draft consists of white space only. *)
Theorem sendDisabled_iff_noop (s : State) :
  (sendDisabled s = true <-> handleSendMessage s = Return)
  /\ (sendDisabled s = true
      <-> isSending s = true
          \/ forallb JsString.is_space (codeUnits (chatInput s)) = true).
Proof.
  assert (Hguard : sendDisabled s = true
                   <-> isSending s = true \/ JsString.trim (chatInput s) = "").
  { unfold sendDisabled. rewrite orb_true_iff, negb_true_iff, truthy_false. tauto. }
  split.
  - rewrite Hguard. split.
    + intros H. apply handleSendMessage_rejected. tauto.
    + intros Hret.
      destruct (isSending s) eqn:Hs; [now left | right].
      destruct (decide (JsString.trim (chatInput s) = "")) as [Hb|Hb]; [exact Hb |].
      destruct (handleSendMessage_accepted s Hb Hs) as (k & Hrun & _).
      rewrite Hret in Hrun. discriminate Hrun.
  - rewrite Hguard, trim_blank. tauto.
Qed.

End ViewMore.

(** ** More on the running component *)

Section ComponentMore.

Local Open Scope list_scope.

Lemma snoc_cases {A : Type} (l : list A) :
  l = [] \/ exists h m, l = h ++ [m].
Proof. induction l as [|m h _] using rev_ind; [now left | right; eauto]. Qed.

(** X14. In every reachable state the Thinking indicator ([isSending])
    is on exactly when the last message of the history is one of the user,
    and it is off while the history is empty. *)
Theorem thinking_iff_last_is_user (sys : System) :
  reachable sys ->
  (isSending (state sys) = true
   <-> exists h sent, chatHistory (state sys) = h ++ [{| role := user; text := sent |}])
  /\ (chatHistory (state sys) = [] -> isSending (state sys) = false).
Proof.
  intros Hreach. destruct (reachable_invariant sys Hreach) as [_ _ Halt Hparity].
  split; [split |].
  - intros Hs. rewrite Hs in Hparity. cbn [negb] in Hparity.
    destruct (snoc_cases (chatHistory (state sys))) as [Hh|(h0 & m0 & Hh)];
      rewrite Hh in Hparity, Halt |- *; [discriminate Hparity |].
    rewrite length_app, Nat.add_1_r, Nat.even_succ, <- Nat.negb_even in Hparity.
    apply negb_false_iff in Hparity.
    assert (Hrole : role m0 = user).
    { rewrite (Halt (length h0) m0), Hparity; [reflexivity |].
      rewrite lookup_app_r by lia. now rewrite Nat.sub_diag. }
    destruct m0 as [r t]. cbn in Hrole. subst r. eauto.
  - intros (h & sent & Hh). rewrite Hh in Halt, Hparity.
    pose proof (Halt (length h) {| role := user; text := sent |}) as Hrole.
    rewrite lookup_app_r, Nat.sub_diag in Hrole by lia. specialize (Hrole eq_refl).
    cbn [role] in Hrole.
    destruct (Nat.even (length h)) eqn:Heven; [| discriminate Hrole].
    rewrite length_app, Nat.add_1_r, Nat.even_succ, <- Nat.negb_even, Heven in Hparity.
    cbn [negb] in Hparity. destruct (isSending (state sys)); [reflexivity | discriminate].
  - intros Hh. rewrite Hh in Hparity. cbn in Hparity.
    destruct (isSending (state sys)); [discriminate | reflexivity].
Qed.

Lemma thinking_iff_last_is_user_witness :
  isSending (state Sample.sent) = true
  <-> exists h sent,
        chatHistory (state Sample.sent) = h ++ [{| role := user; text := sent |}].
Proof.
  exact (proj1 (thinking_iff_last_is_user Sample.sent reachable_sent)).
Defined.

(** X15. [isSending] cannot get stuck: whenever it is true in a
    reachable state, a chat request is in flight, and however that request
    settles the flag is false afterwards. *)
Theorem isSending_is_reset_by_its_request (sys : System) :
  reachable sys -> isSending (state sys) = true ->
  exists before t after,
    pending sys = before ++ t :: after
    /\ is_chat_call (call t) = true
    /\ forall o : Settled (awaited t),
         step sys (start (resume t o) {| state := state sys; pending := before ++ after |})
         /\ isSending
              (state (start (resume t o)
                        {| state := state sys; pending := before ++ after |}))
            = false.
Proof.
  intros Hreach Hs. destruct (reachable_invariant sys Hreach) as [Htasks Hflight _ _].
  rewrite Hs in Hflight. unfold in_flight in Hflight.
  destruct (List.filter (fun t => is_chat_call (call t)) (pending sys)) as [|t l] eqn:Hf;
    [discriminate Hflight |].
  assert (Hin : In t (List.filter (fun t => is_chat_call (call t)) (pending sys)))
    by (rewrite Hf; now left).
  apply filter_In in Hin as [Hin Hchat].
  apply list_elem_of_In, list_elem_of_split in Hin as (before & after & Hp).
  exists before, t, after. split; [exact Hp |]. split; [exact Hchat |].
  intros o. split; [now apply step_settle |].
  rewrite Hp in Htasks. apply Forall_app in Htasks as [_ Htasks].
  apply Forall_cons in Htasks as [Ht _]. unfold task_ok in Ht. rewrite Hchat in Ht.
  destruct (Ht o (state sys)) as (reply & Hrun).
  rewrite start_unfold. cbn [state]. now rewrite Hrun.
Qed.

Lemma isSending_is_reset_by_its_request_witness :
  exists before t after,
    pending Sample.sent = before ++ t :: after /\ is_chat_call (call t) = true.
Proof.
  destruct (isSending_is_reset_by_its_request Sample.sent reachable_sent eq_refl)
    as (before & t & after & Hp & Hchat & _).
  exists before, t, after. split; assumption.
Defined.

Lemma motivation_in_flight_pending (s : State) (l : list Task) :
  motivation_in_flight {| state := s; pending := l |}
  = length (List.filter (fun t => negb (is_chat_call (call t))) l).
Proof. reflexivity. Qed.

Lemma refresh_adds_request (sys : System) (name : string) :
  isMotivationLoading (state (start (fetchMotivation name) sys)) = true
  /\ motivation_in_flight (start (fetchMotivation name) sys)
     = S (motivation_in_flight sys).
Proof.
  rewrite start_unfold. cbn [state pending]. split; [reflexivity |].
  rewrite motivation_in_flight_pending, List.filter_app, length_app.
  unfold motivation_in_flight. cbn. lia.
Qed.

Lemma refresh_then_rejected (sys : System) (name : string) :
  exists sys',
    rtc step sys sys'
    /\ isMotivationLoading (state sys') = false
    /\ motivation_in_flight sys' = motivation_in_flight sys.
Proof.
  destruct (run (fetchMotivation name) (state sys)) as [s1 o1] eqn:Hrun.
  cbn in Hrun. injection Hrun as <- <-.
  eexists. split.
  - eapply rtc_l; [exact (step_refresh sys name) |].
    apply rtc_once. rewrite start_unfold. cbn [fst snd spawned run state pending].
    refine (step_settle _ (pending sys) _ [] Rejected _). reflexivity.
  - rewrite start_unfold. cbn [state pending fst snd]. split; [reflexivity |].
    rewrite motivation_in_flight_pending. cbn [run fetchMotivation].
    rewrite !app_nil_r. reflexivity.
Qed.

(** X16. [fetchMotivation] has no guard: from every state, for every
    [n], the component can reach a state in which [n] more motivation
    requests are in flight while [isMotivationLoading] is false. *)
Theorem fetchMotivation_is_not_serialized (sys : System) (n : nat) :
  exists sys',
    rtc step sys sys'
    /\ motivation_in_flight sys' = (motivation_in_flight sys + n)%nat
    /\ isMotivationLoading (state sys') = false.
Proof.
  revert sys. induction n as [|n IH]; intros sys.
  - destruct (refresh_then_rejected sys "") as (sys' & Hsteps & Hflag & Hcount).
    exists sys'. split; [exact Hsteps |]. split; [lia | exact Hflag].
  - destruct (refresh_adds_request sys "") as [_ Hadd].
    destruct (IH (start (fetchMotivation "") sys)) as (sys' & Hsteps & Hcount & Hflag).
    exists sys'. split; [| split; [lia | exact Hflag]].
    eapply rtc_l; [exact (step_refresh sys "") | exact Hsteps].
Qed.

End ComponentMore.

(** ** Properties of every async function in flight *)

Section Settles.

Local Open Scope list_scope.

Lemma settles_weaken (R R' : State -> State -> Prop) (p : Async) :
  (forall s s', R s s' -> R' s s') -> settles R p -> settles R' p.
Proof. intros Hsub Hp. induction Hp; constructor; auto. Qed.

Lemma run_settles (R : State -> State -> Prop) `{!PreOrder R} (p : Async) :
  settles R p ->
  forall s : State,
    R s (fst (run p s))
    /\ snd (run p s) <> Uncaught
    /\ Forall (fun t => forall o, settles R (resume t o)) (spawned (snd (run p s))).
Proof.
  induction 1 as [|f k Hf Hk IH|X c k Hk IH]; intros s; cbn [run fst snd spawned].
  - split; [reflexivity |]. split; [discriminate | constructor].
  - destruct (IH (f s)) as (HR & Hout & Htasks).
    split; [etransitivity; [apply Hf | exact HR] | split; assumption].
  - split; [reflexivity |]. split; [discriminate |].
    constructor; [exact Hk | constructor].
Qed.

(** One step of the component, when every handler and every function in
    flight satisfies [Q] and running a [Q] function is an [R] step that
    spawns [Q] functions only. *)
Lemma step_tasks (Q : Async -> Prop) (R : State -> State -> Prop) :
  (forall p, Q p ->
     forall s, R s (fst (run p s))
               /\ Forall (fun t => forall o, Q (resume t o)) (spawned (snd (run p s)))) ->
  (forall s b, R s (setIsChatOpen b s)) ->
  (forall s v, R s (setChatInput v s)) ->
  (forall render, Q (handleSendMessage render)) ->
  (forall name, Q (fetchMotivation name)) ->
  forall sys sys',
    Forall (fun t => forall o, Q (resume t o)) (pending sys) ->
    step sys sys' ->
    R (state sys) (state sys')
    /\ Forall (fun t => forall o, Q (resume t o)) (pending sys').
Proof.
  intros Hrun Hopen Hinput Hsend Hfetch sys sys' Htasks Hstep.
  destruct Hstep as [sys|sys v|sys|sys name|sys before t after o Hpending].
  - split; [apply Hopen | exact Htasks].
  - split; [apply Hinput | exact Htasks].
  - rewrite start_unfold. cbn [state pending].
    destruct (Hrun _ (Hsend (state sys)) (state sys)) as [HR Hnew].
    split; [exact HR | apply Forall_app; split; assumption].
  - rewrite start_unfold. cbn [state pending].
    destruct (Hrun _ (Hfetch name) (state sys)) as [HR Hnew].
    split; [exact HR | apply Forall_app; split; assumption].
  - rewrite Hpending in Htasks. apply Forall_app in Htasks as [Hbefore Htasks].
    apply Forall_cons in Htasks as [Ht Hafter].
    rewrite start_unfold. cbn [state pending].
    destruct (Hrun _ (Ht o) (state sys)) as [HR Hnew].
    split; [exact HR |].
    apply Forall_app. split; [apply Forall_app; split; assumption | exact Hnew].
Qed.

Lemma steps_tasks (Q : Async -> Prop) (R : State -> State -> Prop) `{!PreOrder R} :
  (forall p, Q p ->
     forall s, R s (fst (run p s))
               /\ Forall (fun t => forall o, Q (resume t o)) (spawned (snd (run p s)))) ->
  (forall s b, R s (setIsChatOpen b s)) ->
  (forall s v, R s (setChatInput v s)) ->
  (forall render, Q (handleSendMessage render)) ->
  (forall name, Q (fetchMotivation name)) ->
  forall sys sys',
    Forall (fun t => forall o, Q (resume t o)) (pending sys) ->
    rtc step sys sys' ->
    R (state sys) (state sys')
    /\ Forall (fun t => forall o, Q (resume t o)) (pending sys').
Proof.
  intros Hrun Hopen Hinput Hsend Hfetch sys sys' Htasks Hsteps.
  induction Hsteps as [sys|sys mid sys' Hstep Hsteps IH].
  - split; [reflexivity | exact Htasks].
  - destruct (step_tasks Q R Hrun Hopen Hinput Hsend Hfetch sys mid Htasks Hstep)
      as [HR Hmid].
    destruct (IH Hmid) as [HR' Hlast].
    split; [etransitivity; eassumption | exact Hlast].
Qed.

Lemma or_else_nonempty (a : option string) (d : string) :
  d <> "" -> JsString.or_else a d <> "".
Proof.
  intros Hd. unfold JsString.or_else.
  destruct a as [[|c a]|]; cbn [JsString.truthy]; [exact Hd | discriminate | exact Hd].
Qed.

Lemma botReply_nonempty (o : Settled (option string)) : botReply o <> "".
Proof. destruct o; [apply or_else_nonempty |]; discriminate. Qed.

(** [handleSendMessage] settles with [R] as soon as its four kinds of
    update are [R] steps. *)
Lemma handleSendMessage_settles (R : State -> State -> Prop) (render : State) :
  (JsString.trim (chatInput render) <> "" ->
   forall s, R s (setChatHistory
                    (fun prev => prev ++ [{| role := user; text := chatInput render |}]) s)) ->
  (forall s, R s (setChatInput "" s)) ->
  (forall s b, R s (setIsSending b s)) ->
  (forall reply s, reply <> "" ->
     R s (setChatHistory (fun prev => prev ++ [{| role := bot; text := reply |}]) s)) ->
  settles R (handleSendMessage render).
Proof.
  intros Huser Hclear Hflag Hbot. unfold handleSendMessage.
  destruct (JsString.truthy (JsString.trim (chatInput render))) eqn:Htruthy;
    [| constructor].
  destruct (isSending render); [constructor |].
  assert (Hblank : JsString.trim (chatInput render) <> "")
    by (intros Hb; rewrite Hb in Htruthy; discriminate).
  cbn [negb orb]. unfold set, await. cbn [andThen try_catch finally].
  constructor; [exact (Huser Hblank) |].
  constructor; [exact Hclear |].
  constructor; [intros s; apply Hflag |].
  constructor. intros [response_text|]; cbn [andThen try_catch finally].
  - constructor; [intros s; apply Hbot, or_else_nonempty; discriminate |].
    constructor; [intros s; apply Hflag | constructor].
  - constructor; [intros s; apply Hbot; discriminate |].
    constructor; [intros s; apply Hflag | constructor].
Qed.

(** [fetchMotivation] settles with [R] as soon as its two kinds of update
    are [R] steps. *)
Lemma fetchMotivation_settles (R : State -> State -> Prop) (name : string) :
  (forall s b, R s (setIsMotivationLoading b s)) ->
  (forall s v, v <> "" -> R s (setMotivation v s)) ->
  settles R (fetchMotivation name).
Proof.
  intros Hflag Htext. unfold fetchMotivation, set, await.
  cbn [andThen try_catch finally].
  constructor; [intros s; apply Hflag |].
  constructor. intros [sid|]; cbn [andThen try_catch finally].
  - constructor. intros [quote|]; cbn [andThen try_catch finally].
    + constructor; [intros s; apply Htext, or_else_nonempty; discriminate |].
      constructor; [intros s; apply Hflag | constructor].
    + constructor; [intros s; apply Htext; discriminate |].
      constructor; [intros s; apply Hflag | constructor].
  - constructor; [intros s; apply Htext; discriminate |].
    constructor; [intros s; apply Hflag | constructor].
Qed.

Lemma keepsMotivation_preorder : PreOrder keepsMotivation.
Proof.
  split; [intros s; reflexivity |].
  intros s1 s2 s3 H1 H2. unfold keepsMotivation in *. congruence.
Qed.

Lemma keepsChat_preorder : PreOrder keepsChat.
Proof.
  split; [intros s; reflexivity |].
  intros s1 s2 s3 H1 H2. unfold keepsChat in *. congruence.
Qed.

Lemma anything_preorder : PreOrder (fun _ _ : State => True).
Proof. split; [intros s; exact I | intros s1 s2 s3 _ _; exact I]. Qed.

Lemma keepsOther_preorder (chat : bool) : PreOrder (keepsOther chat).
Proof.
  destruct chat; [apply keepsMotivation_preorder | apply keepsChat_preorder].
Qed.

Lemma handleSendMessage_owned (render : State) :
  owned true (handleSendMessage render).
Proof.
  unfold handleSendMessage.
  destruct (negb (JsString.truthy (JsString.trim (chatInput render)))
            || isSending render); [constructor |].
  unfold set, await. cbn [andThen try_catch finally].
  do 3 (constructor; [intros s; reflexivity |]).
  constructor; [reflexivity |].
  intros [response_text|]; cbn [andThen try_catch finally];
    do 2 (constructor; [intros s; reflexivity |]); constructor.
Qed.

Lemma fetchMotivation_owned (name : string) : owned false (fetchMotivation name).
Proof.
  unfold fetchMotivation, set, await. cbn [andThen try_catch finally].
  constructor; [intros s; reflexivity |].
  constructor; [reflexivity |].
  intros [sid|]; cbn [andThen try_catch finally].
  - constructor; [reflexivity |].
    intros [quote|]; cbn [andThen try_catch finally];
      do 2 (constructor; [intros s; reflexivity |]); constructor.
  - do 2 (constructor; [intros s; reflexivity |]). constructor.
Qed.

(** Running a function of a controller keeps the cells of the other one,
    and what it leaves in flight belongs to the same controller. *)
Lemma run_owned (chat : bool) (p : Async) :
  owned chat p ->
  forall s : State,
    keepsOther chat s (fst (run p s))
    /\ Forall (fun t => forall o, owned (is_chat_call (call t)) (resume t o))
              (spawned (snd (run p s))).
Proof.
  pose proof (keepsOther_preorder chat) as Hpre.
  induction 1 as [|f k Hf Hk IH|X c k Hc Hk IH]; intros s; cbn [run fst snd spawned].
  - split; [reflexivity | constructor].
  - destruct (IH (f s)) as (HR & Htasks).
    split; [etransitivity; [apply Hf | exact HR] | exact Htasks].
  - split; [reflexivity |].
    constructor; [| constructor]. cbn [call resume awaited]. rewrite Hc. exact Hk.
Qed.

(** A step keeps the functions in flight with the controller whose call
    they await. *)
Lemma step_owned (sys sys' : System) :
  Forall (fun t => forall o, owned (is_chat_call (call t)) (resume t o)) (pending sys) ->
  step sys sys' ->
  Forall (fun t => forall o, owned (is_chat_call (call t)) (resume t o)) (pending sys').
Proof.
  intros Htasks Hstep.
  destruct Hstep as [sys|sys v|sys|sys name|sys before t after o Hpending];
    try exact Htasks.
  - rewrite start_unfold. cbn [pending]. apply Forall_app. split; [exact Htasks |].
    apply (run_owned true _ (handleSendMessage_owned (state sys))).
  - rewrite start_unfold. cbn [pending]. apply Forall_app. split; [exact Htasks |].
    apply (run_owned false _ (fetchMotivation_owned name)).
  - rewrite Hpending in Htasks. apply Forall_app in Htasks as [Hbefore Htasks].
    apply Forall_cons in Htasks as [Ht Hafter].
    rewrite start_unfold. cbn [pending state]. apply Forall_app.
    split; [apply Forall_app; split; assumption |].
    apply (run_owned _ _ (Ht o)).
Qed.

(** In every reachable state each function in flight belongs to the
    controller whose call it awaits. *)
Lemma reachable_owned (sys : System) :
  reachable sys ->
  Forall (fun t => forall o, owned (is_chat_call (call t)) (resume t o)) (pending sys).
Proof.
  unfold reachable.
  assert (Hfrom : forall first last,
            rtc step first last ->
            Forall (fun t => forall o, owned (is_chat_call (call t)) (resume t o))
                   (pending first) ->
            Forall (fun t => forall o, owned (is_chat_call (call t)) (resume t o))
                   (pending last)).
  { induction 1 as [first|first mid last Hstep Hsteps IH]; intros Htasks;
      [exact Htasks |].
    apply IH. exact (step_owned _ _ Htasks Hstep). }
  intros Hreach. apply (Hfrom _ _ Hreach). constructor.
Qed.

(** X17. The two controllers do not interfere. Every step of the
    component is a step of the chat assistant (opening the panel, typing,
    sending, the settling of a chat request) or a step of the motivation
    feed (a refresh, the settling of a session or query request); from a
    reachable state a step of the chat assistant leaves [motivation] and
    [isMotivationLoading] as they were, and a step of the motivation feed
    leaves [isChatOpen], [chatInput], [chatHistory] and [isSending] as
    they were. *)
Theorem controllers_never_interfere (sys sys' : System) :
  reachable sys ->
  (step sys sys' <-> chat_step sys sys' \/ motivation_step sys sys')
  /\ (chat_step sys sys' ->
      motivation (state sys') = motivation (state sys)
      /\ isMotivationLoading (state sys') = isMotivationLoading (state sys))
  /\ (motivation_step sys sys' ->
      isChatOpen (state sys') = isChatOpen (state sys)
      /\ chatInput (state sys') = chatInput (state sys)
      /\ chatHistory (state sys') = chatHistory (state sys)
      /\ isSending (state sys') = isSending (state sys)).
Proof.
  intros Hreach. pose proof (reachable_owned sys Hreach) as Htasks.
  split; [split |].
  - intros Hstep.
    destruct Hstep as [sys|sys v|sys|sys name|sys before t after o Hpending].
    + left. constructor.
    + left. constructor.
    + left. constructor.
    + right. constructor.
    + destruct (is_chat_call (call t)) eqn:Hchat;
        [left | right]; now constructor.
  - intros [Hstep|Hstep]; destruct Hstep; now constructor.
  - assert (Hchat : chat_step sys sys' -> keepsMotivation (state sys) (state sys')).
    { intros Hstep.
      destruct Hstep as [sys|sys v|sys|sys before t after o Hpending Hchat];
        try reflexivity.
      - rewrite start_unfold. cbn [state].
        apply (run_owned true _ (handleSendMessage_owned (state sys))).
      - rewrite Hpending in Htasks. apply Forall_app in Htasks as [_ Htasks].
        apply Forall_cons in Htasks as [Ht _]. rewrite Hchat in Ht.
        rewrite start_unfold. cbn [state]. apply (run_owned true _ (Ht o)). }
    assert (Hfeed : motivation_step sys sys' -> keepsChat (state sys) (state sys')).
    { intros Hstep.
      destruct Hstep as [sys name|sys before t after o Hpending Hchat'].
      - rewrite start_unfold. cbn [state].
        apply (run_owned false _ (fetchMotivation_owned name)).
      - rewrite Hpending in Htasks. apply Forall_app in Htasks as [_ Htasks].
        apply Forall_cons in Htasks as [Ht _]. rewrite Hchat' in Ht.
        rewrite start_unfold. cbn [state]. apply (run_owned false _ (Ht o)). }
    split.
    + intros Hstep. apply Hchat in Hstep. unfold keepsMotivation, motivationCells in Hstep.
      injection Hstep as H1 H2. auto.
    + intros Hstep. apply Hfeed in Hstep. unfold keepsChat, chatCells in Hstep.
      injection Hstep as H1 H2 H3 H4. auto.
Qed.

Lemma controllers_never_interfere_witness :
  (chat_step Sample.typed Sample.sent
   /\ chatHistory (state Sample.sent) <> chatHistory (state Sample.typed)
   /\ motivation (state Sample.sent) = motivation (state Sample.typed)
   /\ isMotivationLoading (state Sample.sent)
      = isMotivationLoading (state Sample.typed))
  /\ (motivation_step Sample.typed Sample.refreshed
      /\ isMotivationLoading (state Sample.refreshed)
         <> isMotivationLoading (state Sample.typed)
      /\ chatInput (state Sample.refreshed) = chatInput (state Sample.typed)
      /\ chatHistory (state Sample.refreshed) = chatHistory (state Sample.typed)
      /\ isSending (state Sample.refreshed) = isSending (state Sample.typed)).
Proof.
  assert (Hsend : chat_step Sample.typed Sample.sent)
    by exact (chat_send Sample.typed).
  assert (Hrefresh : motivation_step Sample.typed Sample.refreshed)
    by exact (motivation_refresh Sample.typed "Asha").
  split.
  - split; [exact Hsend |]. split; [discriminate |].
    exact (proj1 (proj2 (controllers_never_interfere Sample.typed Sample.sent
                           reachable_typed)) Hsend).
  - split; [exact Hrefresh |]. split; [discriminate |].
    exact (proj2 (proj2 (proj2 (controllers_never_interfere
                                  Sample.typed Sample.refreshed reachable_typed))
                   Hrefresh)).
Defined.

Lemma keepsContent_preorder : PreOrder keepsContent.
Proof. split; [intros s H; exact H | intros s1 s2 s3 H1 H2 H; auto]. Qed.

Lemma content_snoc (s : State) (m : ChatMessage) :
  text m <> "" -> (role m = user -> JsString.trim (text m) <> "") ->
  keepsContent s (setChatHistory (fun prev => prev ++ [m]) s).
Proof.
  intros Htext Hrole [Hh Hm]. split; [| exact Hm].
  intros m' Hin. cbn [chatHistory setChatHistory] in Hin.
  apply elem_of_app in Hin as [Hin|Hin]; [now apply Hh |].
  apply list_elem_of_singleton in Hin as ->. auto.
Qed.

(** X18. Nothing empty is ever shown: in every reachable state each
    message of the history has a non-empty text, each message of the user
    is not blank, and the motivation is not the empty string. *)
Theorem content_is_never_empty (sys : System) :
  reachable sys -> content_shown (state sys).
Proof.
  intros Hreach.
  refine (proj1 (steps_tasks (settles keepsContent) keepsContent
                   (PreOrder0 := keepsContent_preorder)
                   _ _ _ _ _ initialSystem sys _ Hreach) _).
  - intros p Hp s.
    destruct (run_settles keepsContent (PreOrder0 := keepsContent_preorder) p Hp s)
      as (HR & _ & Htasks). auto.
  - intros s b H. exact H.
  - intros s v H. exact H.
  - intros render. apply handleSendMessage_settles.
    + intros Hblank s. apply content_snoc; cbn [text role]; [| auto].
      intros Hempty. rewrite Hempty in Hblank. now apply Hblank.
    + intros s H. exact H.
    + intros s b H. exact H.
    + intros reply s Hreply. apply content_snoc; cbn [text role]; [exact Hreply | discriminate].
  - intros name. apply fetchMotivation_settles.
    + intros s b H. exact H.
    + intros s v Hv [Hh _]. split; [exact Hh | exact Hv].
  - constructor.
  - split; [intros m Hm; inversion Hm | discriminate].
Qed.

Lemma content_is_never_empty_witness : content_shown (state Sample.sent).
Proof. exact (content_is_never_empty Sample.sent reachable_sent). Defined.

(** X19. No exception escapes: in every reachable state neither
    handler, nor any async function in flight however its promise settles,
    ends with an uncaught exception. *)
Theorem no_uncaught_exception (sys : System) :
  reachable sys ->
  (forall s, snd (run (handleSendMessage (state sys)) s) <> Uncaught)
  /\ (forall name s, snd (run (fetchMotivation name) s) <> Uncaught)
  /\ (forall t, t ∈ pending sys ->
        forall (o : Settled (awaited t)) (s : State),
          snd (run (resume t o) s) <> Uncaught).
Proof.
  intros Hreach.
  set (R := fun _ _ : State => True).
  assert (Hsend : forall render, settles R (handleSendMessage render))
    by (intros render; apply handleSendMessage_settles; intros; exact I).
  assert (Hfetch : forall name, settles R (fetchMotivation name))
    by (intros name; apply fetchMotivation_settles; intros; exact I).
  assert (Hrun : forall p, settles R p -> forall s, snd (run p s) <> Uncaught)
    by (intros p Hp s;
        apply (run_settles R (PreOrder0 := anything_preorder) p Hp s)).
  split; [intros s; apply Hrun, Hsend |].
  split; [intros name s; apply Hrun, Hfetch |].
  assert (Htasks : Forall (fun t => forall o, settles R (resume t o)) (pending sys)).
  { refine (proj2 (steps_tasks (settles R) R (PreOrder0 := anything_preorder)
                     _ _ _ Hsend Hfetch initialSystem sys _ Hreach)).
    - intros p Hp s.
      destruct (run_settles R (PreOrder0 := anything_preorder) p Hp s) as (HR & _ & Ht).
      auto.
    - intros; exact I.
    - intros; exact I.
    - constructor. }
  intros t Ht o s. rewrite Forall_forall in Htasks. apply Hrun, Htasks, Ht.
Qed.

Lemma no_uncaught_exception_witness :
  snd (run (handleSendMessage (state Sample.sent)) initialState) <> Uncaught.
Proof.
  exact (proj1 (no_uncaught_exception Sample.sent reachable_sent) initialState).
Defined.

End Settles.
